(** * Morse encoder and double-buffered playback engine (morse.c)

    A shallow embedding of [src/morse.c] and the properties of its encoder
    and playback state machine.

    Conventions of the embedding:
    - [uint8_t] and [uint32_t] values are integers of [Z]; every place where
      the C arithmetic can wrap is written with [uint8] or [uint32].
    - a buffer ([uint8_t *] into one of the two static arrays) is a
      [list Z] of bytes, read with [load] and written with [store];
    - [fprintf (stderr, ...)] appends a [diag] to a log;
    - the calls of the function pointer [morse_cb] made by one
      [morse_update] are returned as a list of the values passed; an entry
      [None] marks a tick whose read left the array, where C defines
      neither the value nor that [morse_cb] is reached. *)

From Stdlib Require Import ZArith Lia Bool Ascii String.
From stdpp Require Import base tactics list.

Local Open Scope Z_scope.

(** ** Machine integers and characters *)

Definition uint8 (z : Z) : Z := z mod 2 ^ 8.
Definition uint32 (z : Z) : Z := z mod 2 ^ 32.

Definition OFFSET : Z := 48.
Definition MAX_CHAR : Z := 90.          (* 'Z' *)
Definition MORSE_MAX_LEN : Z := 1024.

(** The value of a [char].  Bytes above 127 are negative where [char] is
    signed and above ['Z'] where it is not: the range test of
    [morse_encode_char] rejects them on both, as it does here. *)
Definition char_code (c : ascii) : Z := Z.of_N (N_of_ascii c).

(** [toupper] of <ctype.h> in the C locale. *)
Definition toupper (c : ascii) : ascii :=
  if (97 <=? char_code c) && (char_code c <=? 122)
  then ascii_of_N (N_of_ascii c - 32)
  else c.

Definition space : ascii := " "%char.
Definition dot : ascii := "."%char.

(** ** The code table *)

Definition letters : list string :=
  [ "-----"; ".----"; "..---"; "...--"; "....-";
    "....."; "-...."; "--..."; "---.."; "----.";
    ""; ""; ""; ""; ""; ""; "";
    ".-"; "-..."; "-.-."; "-.."; "."; "..-."; "--."; "....";
    ".."; ".---"; "-.-"; ".-.."; "--"; "-."; "---"; ".--.";
    "--.-"; ".-."; "..."; "-"; "..-"; "...-"; ".--"; "-..-";
    "-.--"; "--.." ]%string.

(** [letters[k]].  The default is never returned by the encoder: the range
    test before the lookup keeps [k] within [0, 42] (lemma
    [valid_char_index]). *)
Definition letters_at (k : Z) : string :=
  nth (Z.to_nat k) letters EmptyString.

(** ** Buffers *)

Abbreviation buffer := (list Z).

(** [buf[i]] as an rvalue.  Every read through [load] below is at an index
    the code keeps inside the array; the read of [morse_bit], which is not,
    goes through [!!] and is optional. *)
Definition load (buf : buffer) (i : Z) : Z := default 0 (buf !! Z.to_nat i).

(** [buf[i] = v], the value converted to [uint8_t]. *)
Definition store (buf : buffer) (i v : Z) : buffer :=
  <[Z.to_nat i := uint8 v]> buf.

Definition morse_encode_len (buf : buffer) (bit_len : Z) : buffer :=
  let buf := store buf 0 (Z.shiftr (Z.land bit_len 0xFF000000) 24) in
  let buf := store buf 1 (Z.shiftr (Z.land bit_len 0x00FF0000) 16) in
  let buf := store buf 2 (Z.shiftr (Z.land bit_len 0x0000FF00) 8) in
  store buf 3 (Z.land bit_len 0x000000FF).

Definition morse_len (buf : buffer) : Z :=
  uint32 (Z.lor (Z.lor (Z.lor (Z.shiftl (load buf 0) 24)
                              (Z.shiftl (load buf 1) 16))
                       (Z.shiftl (load buf 2) 8))
                (load buf 3)).

(** [morse_bit].  The index is not compared with the size of the array.  A
    read outside it is undefined in C: the program may pass a bit of
    whatever lies behind the array, or stop.  It is [None] here, and a
    [None] says nothing of what the program does. *)
Definition morse_bit (buf : buffer) (bit_index : Z) : option bool :=
  let i := uint32 (bit_index + 32) in
  (fun b => negb (Z.land (Z.shiftr b (i mod 8)) 1 =? 0))
    <$> buf !! Z.to_nat (i / 8).

(** ** The encoder: a state monad over the target buffer and stderr *)

Inductive diag : Type :=
  | BufferTooSmall                 (* "Buffer must have size of >= 5." *)
  | InvalidChar (ch : ascii)       (* "Invalid char: %c" *)
  | LimitReached.                  (* "Buffer size limit reached." *)

Record enc_state : Type := EncState { buf : buffer; err : list diag }.

Definition Enc (A : Type) : Type := enc_state -> A * enc_state.

Definition ret {A} (a : A) : Enc A := fun e => (a, e).

Definition bind {A B} (m : Enc A) (k : A -> Enc B) : Enc B :=
  fun e => let (a, e') := m e in k a e'.

Notation "'do' x <- m ; k" := (bind m (fun x => k))
  (at level 10, x name, m at level 100, k at level 200).
Notation "m ;; k" := (bind m (fun _ => k))
  (at level 100, k at level 200, right associativity).

Definition fprintf_stderr (d : diag) : Enc unit :=
  fun e => (tt, {| buf := buf e; err := err e ++ [d] |}).

Definition poke (i v : Z) : Enc unit :=
  fun e => (tt, {| buf := store (buf e) i v; err := err e |}).

Definition peek (i : Z) : Enc Z := fun e => (load (buf e) i, e).

Definition on_buf (f : buffer -> buffer) : Enc unit :=
  fun e => (tt, {| buf := f (buf e); err := err e |}).

(** The body of the [for] loop of [morse_encode_bit], run [count] times from
    bit [i]. *)
Fixpoint morse_encode_bit_loop (count : nat) (value i limit : Z) : Enc bool :=
  match count with
  | O => ret true
  | S count' =>
      if limit <=? i then
        fprintf_stderr LimitReached ;;
        poke 3 0 ;; poke 2 0 ;; poke 1 0 ;; poke 0 0 ;;
        ret false
      else
        let bit_index := uint8 (i mod 8) in
        let buf_index := i / 8 in
        (if bit_index =? 0 then poke buf_index 0 else ret tt) ;;
        do b <- peek buf_index ;
        poke buf_index (Z.lor b (Z.shiftl value bit_index)) ;;
        morse_encode_bit_loop count' value (i + 1) limit
  end.

(** [morse_encode_bit (buf, value, n, &index, limit)]: the result is the
    returned flag and the value of [*index] afterwards.  The loop
    [for (i = *index; i < *index + n; ++i)] runs [bound - *index] times
    (none when the bound is not above [*index]), where [bound] is the 32-bit
    sum [*index + n]. *)
Definition morse_encode_bit (value n index limit : Z) : Enc (bool * Z) :=
  let bound := uint32 (index + n) in
  do ok <- morse_encode_bit_loop (Z.to_nat (bound - index)) value index limit ;
  if ok then ret (true, bound) else ret (false, index).

(** The loop of [morse_encode_char] over the elements of a table entry. *)
Fixpoint morse_encode_series (series : string) (i limit : Z) : Enc (bool * Z) :=
  match series with
  | EmptyString => ret (true, i)
  | String element rest =>
      do r <- morse_encode_bit 0 1 i limit ;
      if negb (fst r) then ret (false, snd r) else
      do r <- (if Ascii.eqb element dot
               then morse_encode_bit 1 1 (snd r) limit
               else morse_encode_bit 1 3 (snd r) limit) ;
      if negb (fst r) then ret (false, snd r) else
      morse_encode_series rest (snd r) limit
  end.

(** The range test of [morse_encode_char], negated. *)
Definition in_range (c : ascii) : bool :=
  negb ((char_code c <? OFFSET) || (MAX_CHAR <? char_code c)).

Definition morse_encode_char (ch : ascii) (index limit : Z) : Enc Z :=
  let c := toupper ch in
  if Ascii.eqb c space then
    do r <- morse_encode_bit 0 4 index limit ;
    if negb (fst r) then ret 0 else ret (uint8 (snd r - index))
  else if negb (in_range c) then
    fprintf_stderr (InvalidChar ch) ;; ret 0
  else
    do r <- morse_encode_bit 0 2 index limit ;
    if negb (fst r) then ret 0 else
    do r <- morse_encode_series (letters_at (char_code c - OFFSET)) (snd r) limit ;
    if negb (fst r) then ret 0 else ret (uint8 (snd r - index)).

(** The first loop of [morse_encode]; it stops at the terminating NUL of
    the C string. *)
Fixpoint morse_encode_text (s : string) (i bit_size : Z) : Enc (bool * Z) :=
  match s with
  | EmptyString => ret (true, i)
  | String c s' =>
      if char_code c =? 0 then ret (true, i) else
      do char_len <- morse_encode_char c i bit_size ;
      if char_len =? 0 then ret (false, i)
      else morse_encode_text s' (uint32 (i + char_len)) bit_size
  end.

(** The second loop of [morse_encode], [j] rounds of padding. *)
Fixpoint morse_encode_padding (j : nat) (i bit_size : Z) : Enc (bool * Z) :=
  match j with
  | O => ret (true, i)
  | S j' =>
      do char_len <- morse_encode_char space i bit_size ;
      if char_len =? 0 then ret (false, i)
      else morse_encode_padding j' (uint32 (i + char_len)) bit_size
  end.

Definition morse_encode (s : string) (size : Z) : Enc bool :=
  if size <? 4 then fprintf_stderr BufferTooSmall ;; ret false
  else
    let bit_size := uint32 (size * 8) in
    do r <- morse_encode_text s 32 bit_size ;
    if negb (fst r) then ret false else
    do r <- morse_encode_padding 3 (snd r) bit_size ;
    if negb (fst r) then ret false else
    on_buf (fun b => morse_encode_len b (uint32 (snd r - 32))) ;;
    ret true.


(** ** The playback engine *)

(** The two static arrays, as the values a buffer pointer can take. *)
Inductive bufptr : Type := Buf1 | Buf2.

Definition bufptr_eqb (p q : bufptr) : bool :=
  match p, q with
  | Buf1, Buf1 | Buf2, Buf2 => true
  | _, _ => false
  end.

(** The file-scope variables of morse.c, and what has been written to
    stderr. *)
Record state : Type := State {
  morse_buf1 : buffer;
  morse_buf2 : buffer;
  morse_live_buf : bufptr;
  morse_next_buf : bufptr;
  morse_repeat : bool;
  morse_repeat_next : bool;
  morse_elapsed_time : Z;
  stderr : list diag
}.

(** [morse_dot_duration] is initialised to 60 and never assigned. *)
Definition morse_dot_duration : Z := 60.

(** The state after static initialisation. *)
Definition init : state :=
  {| morse_buf1 := replicate (Z.to_nat MORSE_MAX_LEN) 0;
     morse_buf2 := replicate (Z.to_nat MORSE_MAX_LEN) 0;
     morse_live_buf := Buf1;
     morse_next_buf := Buf2;
     morse_repeat := false;
     morse_repeat_next := false;
     morse_elapsed_time := 0;
     stderr := [] |}.

(** The array a pointer points to. *)
Definition deref (st : state) (p : bufptr) : buffer :=
  match p with Buf1 => morse_buf1 st | Buf2 => morse_buf2 st end.

Definition assign (st : state) (p : bufptr) (b : buffer) : state :=
  match p with
  | Buf1 => {| morse_buf1 := b; morse_buf2 := morse_buf2 st;
               morse_live_buf := morse_live_buf st;
               morse_next_buf := morse_next_buf st;
               morse_repeat := morse_repeat st;
               morse_repeat_next := morse_repeat_next st;
               morse_elapsed_time := morse_elapsed_time st;
               stderr := stderr st |}
  | Buf2 => {| morse_buf1 := morse_buf1 st; morse_buf2 := b;
               morse_live_buf := morse_live_buf st;
               morse_next_buf := morse_next_buf st;
               morse_repeat := morse_repeat st;
               morse_repeat_next := morse_repeat_next st;
               morse_elapsed_time := morse_elapsed_time st;
               stderr := stderr st |}
  end.

Definition set_bufs (live next : bufptr) (st : state) : state :=
  {| morse_buf1 := morse_buf1 st; morse_buf2 := morse_buf2 st;
     morse_live_buf := live; morse_next_buf := next;
     morse_repeat := morse_repeat st;
     morse_repeat_next := morse_repeat_next st;
     morse_elapsed_time := morse_elapsed_time st;
     stderr := stderr st |}.

Definition set_repeat (r : bool) (st : state) : state :=
  {| morse_buf1 := morse_buf1 st; morse_buf2 := morse_buf2 st;
     morse_live_buf := morse_live_buf st;
     morse_next_buf := morse_next_buf st;
     morse_repeat := r;
     morse_repeat_next := morse_repeat_next st;
     morse_elapsed_time := morse_elapsed_time st;
     stderr := stderr st |}.

Definition set_repeat_next (r : bool) (st : state) : state :=
  {| morse_buf1 := morse_buf1 st; morse_buf2 := morse_buf2 st;
     morse_live_buf := morse_live_buf st;
     morse_next_buf := morse_next_buf st;
     morse_repeat := morse_repeat st;
     morse_repeat_next := r;
     morse_elapsed_time := morse_elapsed_time st;
     stderr := stderr st |}.

Definition set_elapsed_time (t : Z) (st : state) : state :=
  {| morse_buf1 := morse_buf1 st; morse_buf2 := morse_buf2 st;
     morse_live_buf := morse_live_buf st;
     morse_next_buf := morse_next_buf st;
     morse_repeat := morse_repeat st;
     morse_repeat_next := morse_repeat_next st;
     morse_elapsed_time := t;
     stderr := stderr st |}.

Definition set_stderr (log : list diag) (st : state) : state :=
  {| morse_buf1 := morse_buf1 st; morse_buf2 := morse_buf2 st;
     morse_live_buf := morse_live_buf st;
     morse_next_buf := morse_next_buf st;
     morse_repeat := morse_repeat st;
     morse_repeat_next := morse_repeat_next st;
     morse_elapsed_time := morse_elapsed_time st;
     stderr := log |}.

Definition morse_switch_buf (st : state) : state :=
  let st :=
    if bufptr_eqb (morse_live_buf st) Buf1
    then set_bufs Buf2 Buf1 st
    else set_bufs Buf1 Buf2 st in
  let st := set_repeat (morse_repeat_next st) st in
  let st := set_repeat_next false st in
  assign st (morse_next_buf st)
         (morse_encode_len (deref st (morse_next_buf st)) 0).

(** [morse (s, repeat)]; the flag returned by [morse_encode] is dropped. *)
Definition morse (st : state) (s : string) (repeat : bool) : state :=
  let p := morse_next_buf st in
  let e := snd (morse_encode s MORSE_MAX_LEN
                             {| buf := deref st p; err := stderr st |}) in
  let st := set_stderr (err e) (assign st p (buf e)) in
  let st := set_repeat_next repeat st in
  set_repeat false st.

(** [morse_update (elapsed_ms)], with the calls of [morse_cb] it makes.
    [morse_cb] is taken to have been installed by the host program.  An
    output [[Some v]] is one call, [morse_cb (v)]; [[]] is no call.  An
    output [[None]] is a tick whose [morse_bit] read left the array: the
    assignments before the read are those of the state returned, but the
    program has no defined behaviour from the read on, and the call of
    [morse_cb] is not promised. *)
Definition morse_update (st : state) (elapsed_ms : Z)
  : state * list (option bool) :=
  let live_len := morse_len (deref st (morse_live_buf st)) in
  if (live_len =? 0) && (morse_len (deref st (morse_next_buf st)) =? 0)
  then (st, [])
  else
    let st := set_elapsed_time (uint32 (morse_elapsed_time st + elapsed_ms)) st in
    let bit_index := morse_elapsed_time st / morse_dot_duration in
    let st :=
      if live_len <=? bit_index then
        let st := if negb (morse_repeat st) then morse_switch_buf st else st in
        set_elapsed_time 0 st
      else st in
    (st, [morse_bit (deref st (morse_live_buf st)) bit_index]).

Definition morse_stop (st : state) : state := set_repeat false st.

Definition morse_interrupt (st : state) : state :=
  let st := assign st (morse_live_buf st)
                   (morse_encode_len (deref st (morse_live_buf st)) 0) in
  set_repeat false st.

(** The states the four entry points can produce from the initial one;
    [elapsed_ms] is a [uint32_t]. *)
Inductive reachable : state -> Prop :=
  | reach_init : reachable init
  | reach_morse st s repeat :
      reachable st -> reachable (morse st s repeat)
  | reach_update st elapsed_ms :
      reachable st -> 0 <= elapsed_ms < 2 ^ 32 ->
      reachable (fst (morse_update st elapsed_ms))
  | reach_stop st : reachable st -> reachable (morse_stop st)
  | reach_interrupt st : reachable st -> reachable (morse_interrupt st).

(** A run of ticks, with all the values passed to [morse_cb]. *)
Fixpoint run_ticks (st : state) (ticks : list Z) : state * list (option bool) :=
  match ticks with
  | [] => (st, [])
  | ms :: ticks' =>
      let (st1, out1) := morse_update st ms in
      let (st2, out2) := run_ticks st1 ticks' in
      (st2, out1 ++ out2)
  end.

(** ** Unit costs, as the specification counts them *)

(** One inter-element gap, then 1 unit for a dot and 3 for a dash (the
    entries of [letters] hold nothing else). *)
Definition symbol_cost (element : ascii) : Z :=
  1 + (if Ascii.eqb element dot then 1 else 3).

Fixpoint series_cost (series : string) : Z :=
  match series with
  | EmptyString => 0
  | String element rest => symbol_cost element + series_cost rest
  end.

(** 4 units for a space; for any other character 2 units and the cost of
    its table entry. *)
Definition char_cost (ch : ascii) : Z :=
  if Ascii.eqb (toupper ch) space then 4
  else 2 + series_cost (letters_at (char_code (toupper ch) - OFFSET)).

Fixpoint text_cost (s : string) : Z :=
  match s with
  | EmptyString => 0
  | String ch s' => char_cost ch + text_cost s'
  end.

Fixpoint all_chars (p : ascii -> bool) (s : string) : bool :=
  match s with
  | EmptyString => true
  | String ch s' => p ch && all_chars p s'
  end.

(** The text the padding loop emits: [j] spaces. *)
Fixpoint spaces (j : nat) : string :=
  match j with
  | O => EmptyString
  | S j' => String space (spaces j')
  end.

(** The characters [{0-9, A-Z, a-z, space}]. *)
Definition supported (ch : ascii) : bool :=
  let c := char_code ch in
  ((48 <=? c) && (c <=? 57)) || ((65 <=? c) && (c <=? 90))
  || ((97 <=? c) && (c <=? 122)) || (c =? 32).

(** The characters [morse_encode_char] does not reject. *)
Definition accepted (ch : ascii) : bool :=
  Ascii.eqb (toupper ch) space || in_range (toupper ch).

(** The characters between ['9'] and ['A']. *)
Definition in_gap (ch : ascii) : bool :=
  (58 <=? char_code ch) && (char_code ch <=? 64).

(** Two strings that differ in the case of letters only. *)
Fixpoint upcase (s : string) : string :=
  match s with
  | EmptyString => EmptyString
  | String ch s' => String (toupper ch) (upcase s')
  end.

(** What a call leaves of the state it started in.  An emission without
    overflow keeps the size, the length header and stderr; an overflow
    leaves a zeroed header and one more diagnostic. *)
Definition enc_ok (e e' : enc_state) : Prop :=
  length (buf e') = length (buf e)
  /\ take 4 (buf e') = take 4 (buf e)
  /\ err e' = err e.

Definition enc_overflow (e e' : enc_state) : Prop :=
  length (buf e') = length (buf e)
  /\ take 4 (buf e') = [0; 0; 0; 0]
  /\ err e' = err e ++ [LimitReached].

(** ** Invariants of the engine *)

(** A computation that does not resize the target buffer. *)
Definition keeps_length {A : Type} (m : Enc A) : Prop :=
  forall e, length (buf (snd (m e))) = length (buf e).

(** The two pointers never alias, both arrays keep their size, and the
    elapsed time is a 32-bit value. *)
Definition wf (st : state) : Prop :=
  morse_live_buf st <> morse_next_buf st
  /\ Z.of_nat (length (morse_buf1 st)) = MORSE_MAX_LEN
  /\ Z.of_nat (length (morse_buf2 st)) = MORSE_MAX_LEN
  /\ 0 <= morse_elapsed_time st < 2 ^ 32.

(** The bit index [morse_update] computes from a tick of [elapsed_ms]. *)
Definition tick_index (st : state) (elapsed_ms : Z) : Z :=
  uint32 (morse_elapsed_time st + elapsed_ms) / morse_dot_duration.

(** Every tick of the run stays before the end of the live message. *)
Fixpoint before_boundary (st : state) (ticks : list Z) : bool :=
  match ticks with
  | [] => true
  | ms :: ticks' =>
      (tick_index st ms <? morse_len (deref st (morse_live_buf st)))
      && before_boundary (fst (morse_update st ms)) ticks'
  end.

(** Two states that play the same live message from the same instant. *)
Definition same_live (st1 st2 : state) : Prop :=
  morse_live_buf st1 = morse_live_buf st2
  /\ deref st1 (morse_live_buf st1) = deref st2 (morse_live_buf st2)
  /\ morse_elapsed_time st1 = morse_elapsed_time st2.

(** ** Sample states *)

(** An empty target of [MORSE_MAX_LEN] bytes and an empty stderr. *)
Definition fresh : enc_state :=
  {| buf := replicate (Z.to_nat MORSE_MAX_LEN) 0; err := [] |}.

(** "E" is live (16 units), nothing is queued. *)
Definition playing_E : state := fst (morse_update (morse init "E" false) 0).

(** "E" is live and "0" is queued behind it. *)
Definition queued_0 : state := morse playing_E "0" false.

(** "E" is live and repeats. *)
Definition repeating_E : state := fst (morse_update (morse init "E" true) 0).

(** ** The signal a text stands for *)

(** Bit [k] of a buffer, counted from byte 0, least significant bit
    first. *)
Definition bit_at (b : buffer) (k : Z) : bool :=
  Z.testbit (load b (k / 8)) (k mod 8).

(** What one round of the loop of [morse_encode_bit] makes of the buffer
    when bit [i] is below the limit. *)
Definition write_bit (b : buffer) (value i : Z) : buffer :=
  let bit_index := uint8 (i mod 8) in
  let buf_index := i / 8 in
  let b1 := if bit_index =? 0 then store b buf_index 0 else b in
  store b1 buf_index (Z.lor (load b1 buf_index) (Z.shiftl value bit_index)).

(** One unit off, then one unit on for a dot and three for a dash. *)
Definition symbol_bits (element : ascii) : list bool :=
  false :: (if Ascii.eqb element dot then [true] else [true; true; true]).

Fixpoint series_bits (series : string) : list bool :=
  match series with
  | EmptyString => []
  | String element rest => symbol_bits element ++ series_bits rest
  end.

Definition char_bits (ch : ascii) : list bool :=
  if Ascii.eqb (toupper ch) space then replicate 4 false
  else [false; false]
       ++ series_bits (letters_at (char_code (toupper ch) - OFFSET)).

Fixpoint text_bits (s : string) : list bool :=
  match s with
  | EmptyString => []
  | String ch s' => char_bits ch ++ text_bits s'
  end.

(** The units of a whole message: the text and three spaces. *)
Definition message_bits (s : string) : list bool :=
  text_bits s ++ replicate 12 false.

(** The buffer [b] holds [bits] from bit 32 on, the rest of the byte the
    last of them lies in is clear, and the bytes after that one are those
    of [b0]. *)
Definition holds_bits (b0 b : buffer) (bits : list bool) : Prop :=
  let i := 32 + Z.of_nat (length bits) in
  (forall (k : nat) (v : bool),
      bits !! k = Some v -> bit_at b (32 + Z.of_nat k) = v)
  /\ (forall k : Z, i <= k < 8 * ((i + 7) / 8) -> bit_at b k = false)
  /\ (forall j : nat, (i + 7) / 8 <= Z.of_nat j -> b !! j = b0 !! j).

(** ** Runs of the engine *)

(** The values [morse_elapsed_time] takes over a run of ticks that starts
    at time [t] and meets no boundary. *)
Fixpoint sample_times (t : Z) (ticks : list Z) : list Z :=
  match ticks with
  | [] => []
  | ms :: ticks' => uint32 (t + ms) :: sample_times (uint32 (t + ms)) ticks'
  end.

(** The largest length a header can hold: the bits of a buffer after its
    header. *)
Definition MAX_BITS : Z := MORSE_MAX_LEN * 8 - 32.

(** Neither header exceeds the bits there are. *)
Definition headers_bounded (st : state) : Prop :=
  morse_len (morse_buf1 st) <= MAX_BITS /\ morse_len (morse_buf2 st) <= MAX_BITS.

(** The three ways a call on a buffer of at least 4 bytes ends. *)
Definition encode_outcome (size : Z) (e : enc_state) (r : bool * enc_state)
  : Prop :=
  (fst r = true
   /\ err (snd r) = err e
   /\ 12 <= morse_len (buf (snd r)) <= 8 * size - 32)
  \/ (fst r = false
      /\ err (snd r) = err e ++ [LimitReached]
      /\ take 4 (buf (snd r)) = [0; 0; 0; 0])
  \/ (fst r = false
      /\ (exists bad, accepted bad = false
                      /\ err (snd r) = err e ++ [InvalidChar bad])
      /\ take 4 (buf (snd r)) = take 4 (buf e)).

(** Both buffers are empty. *)
Definition idle (st : state) : Prop :=
  morse_len (deref st (morse_live_buf st)) = 0
  /\ morse_len (deref st (morse_next_buf st)) = 0.

(** [n] times the character [ch]. *)
Fixpoint copies (n : nat) (ch : ascii) : string :=
  match n with
  | O => EmptyString
  | S n' => String ch (copies n' ch)
  end.

(** The longest message of "E": 2037 characters, 8160 units, every bit of
    the buffer after the header.  It is live and its last unit has been
    reached. *)
Definition full_live : state :=
  fst (morse_update
         (fst (morse_update (morse init (copies 2037 "E") false) 0))
         489540).

(** * Properties *)

(** ** The length header *)

Lemma byte_lane_bit (n s k : Z) :
  0 <= s -> 0 <= k ->
  Z.testbit (Z.shiftl (uint8 (Z.shiftr (Z.land n (Z.shiftl (Z.ones 8) s)) s)) s) k
  = (s <=? k) && (k <? s + 8) && Z.testbit n k.
Proof.
  intros Hs Hk. unfold uint8.
  destruct (Z.leb_spec s k) as [Hle | Hlt].
  - rewrite Z.shiftl_spec, Z.testbit_mod_pow2, Z.shiftr_spec, Z.land_spec,
      Z.shiftl_spec, Z.testbit_ones by lia.
    replace (k - s + s) with k by lia.
    replace (k - s + s - s) with (k - s) by lia.
    destruct (Z.testbit n k); rewrite ?andb_false_r, ?andb_true_r; [| reflexivity].
    destruct (Z.ltb_spec (k - s) 8), (Z.ltb_spec k (s + 8)),
      (Z.leb_spec 0 (k - s)); simpl; try reflexivity; lia.
  - rewrite Z.shiftl_spec_low by lia. reflexivity.
Qed.

Lemma be32_bits (n : Z) :
  0 <= n < 2 ^ 32 ->
  uint32 (Z.lor (Z.lor (Z.lor
    (Z.shiftl (uint8 (Z.shiftr (Z.land n 0xFF000000) 24)) 24)
    (Z.shiftl (uint8 (Z.shiftr (Z.land n 0x00FF0000) 16)) 16))
    (Z.shiftl (uint8 (Z.shiftr (Z.land n 0x0000FF00) 8)) 8))
    (uint8 (Z.land n 0x000000FF))) = n.
Proof.
  intros Hn.
  change 0xFF000000 with (Z.shiftl (Z.ones 8) 24).
  change 0x00FF0000 with (Z.shiftl (Z.ones 8) 16).
  change 0x0000FF00 with (Z.shiftl (Z.ones 8) 8).
  rewrite <- (Z.shiftl_0_r (uint8 (Z.land n 0x000000FF))).
  rewrite <- (Z.shiftr_0_r (Z.land n 0x000000FF)).
  change 0x000000FF with (Z.shiftl (Z.ones 8) 0).
  apply Z.bits_inj'. intros k Hk. unfold uint32.
  rewrite Z.testbit_mod_pow2 by lia.
  rewrite !Z.lor_spec, !byte_lane_bit by lia.
  destruct (Z.ltb_spec k 32) as [Hlt | Hge].
  - destruct (Z.testbit n k); rewrite ?andb_false_r, ?andb_true_r; [| reflexivity].
    destruct (Z.leb_spec 24 k), (Z.leb_spec 16 k), (Z.leb_spec 8 k),
      (Z.leb_spec 0 k), (Z.ltb_spec k (24 + 8)), (Z.ltb_spec k (16 + 8)),
      (Z.ltb_spec k (8 + 8)), (Z.ltb_spec k (0 + 8));
      simpl; try reflexivity; lia.
  - simpl. symmetry. apply (Z.bits_above_log2 n k); [lia |].
    destruct (Z.eq_dec n 0) as [-> | Hnz]; [simpl; lia |].
    apply Z.log2_lt_pow2; [lia |].
    apply Z.lt_le_trans with (2 ^ 32); [lia |].
    apply Z.pow_le_mono_r; lia.
Qed.

Lemma morse_len_encode_len (b : buffer) (n : Z) :
  (4 <= length b)%nat -> 0 <= n < 2 ^ 32 ->
  morse_len (morse_encode_len b n) = n.
Proof.
  intros Hb Hn.
  destruct b as [| b0 [| b1 [| b2 [| b3 b]]]]; simpl in Hb; try lia.
  unfold morse_len, morse_encode_len, load, store.
  change (Z.to_nat 0) with 0%nat. change (Z.to_nat 1) with 1%nat.
  change (Z.to_nat 2) with 2%nat. change (Z.to_nat 3) with 3%nat.
  cbn [insert list_insert lookup list_lookup default from_option].
  apply be32_bits, Hn.
Qed.

Lemma morse_len_take (b b' : buffer) :
  take 4 b = take 4 b' -> morse_len b = morse_len b'.
Proof.
  intros H. unfold morse_len, load.
  change (Z.to_nat 0) with 0%nat. change (Z.to_nat 1) with 1%nat.
  change (Z.to_nat 2) with 2%nat. change (Z.to_nat 3) with 3%nat.
  rewrite <- (lookup_take_lt b 4 0), <- (lookup_take_lt b 4 1),
    <- (lookup_take_lt b 4 2), <- (lookup_take_lt b 4 3) by lia.
  rewrite H.
  rewrite !lookup_take_lt by lia. reflexivity.
Qed.

Lemma morse_len_zero_header (b : buffer) :
  take 4 b = [0; 0; 0; 0] -> morse_len b = 0.
Proof.
  intros H. rewrite (morse_len_take b [0; 0; 0; 0]); [reflexivity | exact H].
Qed.

Lemma length_morse_encode_len (b : buffer) (n : Z) :
  length (morse_encode_len b n) = length b.
Proof. unfold morse_encode_len, store. now rewrite !length_insert. Qed.

Lemma morse_encode_len_tail (b : buffer) (n : Z) (i : nat) :
  (4 <= i)%nat -> morse_encode_len b n !! i = b !! i.
Proof.
  intros Hi. unfold morse_encode_len, store.
  rewrite !list_lookup_insert_ne by lia. reflexivity.
Qed.

(** ** Characters and table entries *)

Lemma accepted_cost (ch : ascii) :
  accepted ch = true -> 2 <= char_cost ch <= 22.
Proof.
  destruct ch as [[] [] [] [] [] [] [] []]; vm_compute;
    intros H; try discriminate H; split; discriminate.
Qed.

Lemma accepted_not_nul (ch : ascii) :
  accepted ch = true -> (char_code ch =? 0) = false.
Proof.
  destruct ch as [[] [] [] [] [] [] [] []]; vm_compute;
    intros H; try discriminate H; reflexivity.
Qed.

Lemma supported_accepted (ch : ascii) :
  supported ch = true -> accepted ch = true.
Proof.
  destruct ch as [[] [] [] [] [] [] [] []]; vm_compute;
    intros H; try discriminate H; reflexivity.
Qed.

Lemma in_gap_accepted (ch : ascii) :
  in_gap ch = true -> accepted ch = true /\ char_cost ch = 2.
Proof.
  destruct ch as [[] [] [] [] [] [] [] []]; vm_compute;
    intros H; try discriminate H; split; reflexivity.
Qed.

(** The table is only indexed inside its bounds. *)
Lemma valid_char_index (c : ascii) :
  in_range c = true ->
  (Z.to_nat (char_code c - OFFSET) < length letters)%nat.
Proof.
  destruct c as [[] [] [] [] [] [] [] []]; vm_compute;
    intros H; try discriminate H; lia.
Qed.

Lemma toupper_idempotent (ch : ascii) : toupper (toupper ch) = toupper ch.
Proof. destruct ch as [[] [] [] [] [] [] [] []]; reflexivity. Qed.

Lemma all_chars_impl (p q : ascii -> bool) (s : string) :
  (forall ch, p ch = true -> q ch = true) ->
  all_chars p s = true -> all_chars q s = true.
Proof.
  intros Hpq. induction s as [| ch s IH]; simpl; [reflexivity |].
  intros [Hp Hs]%andb_true_iff. rewrite (Hpq _ Hp), (IH Hs). reflexivity.
Qed.

Lemma text_cost_nonneg (s : string) :
  all_chars accepted s = true -> 0 <= text_cost s.
Proof.
  induction s as [| ch s IH]; simpl; [lia |].
  intros [Hc Hs]%andb_true_iff. pose proof (accepted_cost ch Hc). 
  specialize (IH Hs). lia.
Qed.

(** ** Emission of bits *)

Lemma enc_ok_refl (e : enc_state) : enc_ok e e.
Proof. repeat split. Qed.

Lemma enc_ok_trans (e1 e2 e3 : enc_state) :
  enc_ok e1 e2 -> enc_ok e2 e3 -> enc_ok e1 e3.
Proof. intros (? & ? & ?) (? & ? & ?). repeat split; congruence. Qed.

Lemma enc_ok_overflow (e1 e2 e3 : enc_state) :
  enc_ok e1 e2 -> enc_overflow e2 e3 -> enc_overflow e1 e3.
Proof. intros (? & ? & ?) (? & ? & ?). repeat split; congruence. Qed.

Lemma enc_ok_store (e : enc_state) (i v : Z) :
  32 <= i ->
  enc_ok e {| buf := store (buf e) (i / 8) v; err := err e |}.
Proof.
  intros Hi. unfold enc_ok, store. simpl.
  assert (4 <= i / 8) by (apply Z.div_le_lower_bound; lia).
  rewrite length_insert, take_insert_ge by lia. repeat split.
Qed.

Lemma zero_header_overflow (e : enc_state) :
  (4 <= length (buf e))%nat ->
  enc_overflow e
    {| buf := store (store (store (store (buf e) 3 0) 2 0) 1 0) 0 0;
       err := err e ++ [LimitReached] |}.
Proof.
  intros Hlen. unfold enc_overflow, store. simpl.
  rewrite !length_insert.
  destruct (buf e) as [| b0 [| b1 [| b2 [| b3 b]]]]; simpl in Hlen; try lia.
  repeat split.
Qed.

Lemma morse_encode_bit_loop_ok (count : nat) :
  forall (value i limit : Z) (e : enc_state),
    32 <= i -> i + Z.of_nat count <= limit ->
    exists e', morse_encode_bit_loop count value i limit e = (true, e')
               /\ enc_ok e e'.
Proof.
  induction count as [| count IH]; intros value i limit e Hi Hfit.
  - exists e. split; [reflexivity | apply enc_ok_refl].
  - cbn [morse_encode_bit_loop].
    destruct (Z.leb_spec limit i) as [Hge | Hlt]; [lia |].
    unfold bind at 1.
    set (e1 := snd ((if uint8 (i mod 8) =? 0 then poke (i / 8) 0 else ret tt) e)).
    assert (He1 : enc_ok e e1).
    { subst e1. destruct (uint8 (i mod 8) =? 0); simpl;
        [apply enc_ok_store, Hi | apply enc_ok_refl]. }
    replace ((if uint8 (i mod 8) =? 0 then poke (i / 8) 0 else ret tt) e)
      with (tt, e1)
      by (subst e1; destruct (uint8 (i mod 8) =? 0); reflexivity).
    unfold bind, peek, poke. cbn [fst snd].
    match goal with
    | |- context [morse_encode_bit_loop count value (i + 1) limit ?e2] =>
        destruct (IH value (i + 1) limit e2) as (e' & Hrun & Hok);
          [lia | lia |];
        exists e'; split; [exact Hrun |];
        refine (enc_ok_trans _ _ _ He1 (enc_ok_trans _ e2 _ _ Hok))
    end.
    apply (enc_ok_store e1 i), Hi.
Qed.

Lemma morse_encode_bit_loop_overflow (count : nat) :
  forall (value i limit : Z) (e : enc_state),
    32 <= i -> (4 <= length (buf e))%nat ->
    (0 < count)%nat -> limit < i + Z.of_nat count ->
    exists e', morse_encode_bit_loop count value i limit e = (false, e')
               /\ enc_overflow e e'.
Proof.
  induction count as [| count IH]; intros value i limit e Hi Hlen Hpos Hover;
    [lia |].
  cbn [morse_encode_bit_loop].
  destruct (Z.leb_spec limit i) as [Hge | Hlt].
  - eexists. split; [reflexivity |]. simpl. apply zero_header_overflow, Hlen.
  - unfold bind at 1.
    set (e1 := snd ((if uint8 (i mod 8) =? 0 then poke (i / 8) 0 else ret tt) e)).
    assert (He1 : enc_ok e e1).
    { subst e1. destruct (uint8 (i mod 8) =? 0); simpl;
        [apply enc_ok_store, Hi | apply enc_ok_refl]. }
    replace ((if uint8 (i mod 8) =? 0 then poke (i / 8) 0 else ret tt) e)
      with (tt, e1)
      by (subst e1; destruct (uint8 (i mod 8) =? 0); reflexivity).
    unfold bind, peek, poke. cbn [fst snd].
    match goal with
    | |- context [morse_encode_bit_loop count value (i + 1) limit ?e2] =>
        assert (He2 : enc_ok e1 e2) by (apply (enc_ok_store e1 i), Hi);
        destruct (IH value (i + 1) limit e2) as (e' & Hrun & Hov);
          [lia | destruct He1 as (L1 & _), He2 as (L2 & _); lia | lia | lia |];
        exists e'; split; [exact Hrun |];
        exact (enc_ok_overflow _ _ _ He1 (enc_ok_overflow _ _ _ He2 Hov))
    end.
Qed.

(** Rewrites the first call of a sequence with its equation [H]. *)
Ltac run_call H := unfold bind at 1; rewrite H; cbn [fst snd negb].

Lemma morse_encode_bit_ok (value n index limit : Z) (e : enc_state) :
  32 <= index -> 0 <= n -> index + n <= limit -> limit < 2 ^ 32 ->
  exists e', morse_encode_bit value n index limit e = ((true, index + n), e')
             /\ enc_ok e e'.
Proof.
  intros Hi Hn Hfit Hlim. unfold morse_encode_bit, uint32.
  rewrite Z.mod_small by lia.
  destruct (morse_encode_bit_loop_ok (Z.to_nat (index + n - index))
              value index limit e) as (e' & Hrun & Hok); [lia | lia |].
  run_call Hrun. exists e'. split; [reflexivity | exact Hok].
Qed.

Lemma morse_encode_bit_overflow (value n index limit : Z) (e : enc_state) :
  32 <= index -> 0 < n -> limit < index + n -> index + n < 2 ^ 32 ->
  (4 <= length (buf e))%nat ->
  exists e', morse_encode_bit value n index limit e = ((false, index), e')
             /\ enc_overflow e e'.
Proof.
  intros Hi Hn Hover Hlim Hlen. unfold morse_encode_bit, uint32.
  rewrite Z.mod_small by lia.
  destruct (morse_encode_bit_loop_overflow (Z.to_nat (index + n - index))
              value index limit e) as (e' & Hrun & Hov); [lia | lia | lia | lia |].
  run_call Hrun. exists e'. split; [reflexivity | exact Hov].
Qed.

Lemma symbol_cost_cases (element : ascii) :
  symbol_cost element = 2 \/ symbol_cost element = 4.
Proof. unfold symbol_cost. destruct (Ascii.eqb element dot); lia. Qed.

Lemma series_cost_nonneg (series : string) : 0 <= series_cost series.
Proof.
  induction series as [| element rest IH]; simpl; [lia |].
  destruct (symbol_cost_cases element); lia.
Qed.

Lemma morse_encode_series_ok (series : string) :
  forall (i limit : Z) (e : enc_state),
    32 <= i -> i + series_cost series <= limit -> limit < 2 ^ 32 ->
    exists e',
      morse_encode_series series i limit e
      = ((true, i + series_cost series), e')
      /\ enc_ok e e'.
Proof.
  induction series as [| element rest IH]; intros i limit e Hi Hfit Hlim.
  - exists e. simpl. rewrite Z.add_0_r. split; [reflexivity | apply enc_ok_refl].
  - cbn [morse_encode_series series_cost] in *.
    pose proof (series_cost_nonneg rest) as Hrest.
    unfold symbol_cost in *.
    destruct (morse_encode_bit_ok 0 1 i limit e) as (e1 & Hgap & Hok1);
      [destruct (Ascii.eqb element dot); lia .. |].
    run_call Hgap.
    destruct (Ascii.eqb element dot).
    + destruct (morse_encode_bit_ok 1 1 (i + 1) limit e1) as (e2 & Hsym & Hok2);
        [lia .. |].
      run_call Hsym.
      destruct (IH (i + 1 + 1) limit e2) as (e3 & Hrun & Hok3); [lia .. |].
      rewrite Hrun. exists e3. split; [f_equal; f_equal; lia |].
      eauto using enc_ok_trans.
    + destruct (morse_encode_bit_ok 1 3 (i + 1) limit e1) as (e2 & Hsym & Hok2);
        [lia .. |].
      run_call Hsym.
      destruct (IH (i + 1 + 3) limit e2) as (e3 & Hrun & Hok3); [lia .. |].
      rewrite Hrun. exists e3. split; [f_equal; f_equal; lia |].
      eauto using enc_ok_trans.
Qed.

Lemma enc_ok_length (e e' : enc_state) :
  enc_ok e e' -> (4 <= length (buf e))%nat -> (4 <= length (buf e'))%nat.
Proof. intros (L & _) H. lia. Qed.

Lemma morse_encode_series_overflow (series : string) :
  forall (i limit : Z) (e : enc_state),
    32 <= i <= limit -> limit < i + series_cost series ->
    limit + 4 < 2 ^ 32 -> (4 <= length (buf e))%nat ->
    exists j e',
      morse_encode_series series i limit e = ((false, j), e')
      /\ enc_overflow e e'.
Proof.
  induction series as [| element rest IH]; intros i limit e Hi Hover Hlim Hlen.
  - simpl in Hover. lia.
  - cbn [morse_encode_series series_cost] in *.
    destruct (Z.le_gt_cases (i + 1) limit) as [Hgap_fits | Hgap_over].
    2: { destruct (morse_encode_bit_overflow 0 1 i limit e)
           as (e1 & Hgap & Hov); [lia .. | exact Hlen |].
         run_call Hgap. exists i, e1. split; [reflexivity | exact Hov]. }
    destruct (morse_encode_bit_ok 0 1 i limit e) as (e1 & Hgap & Hok1);
      [lia .. |].
    run_call Hgap.
    pose proof (enc_ok_length _ _ Hok1 Hlen) as Hlen1.
    unfold symbol_cost in Hover.
    destruct (Ascii.eqb element dot).
    + destruct (Z.le_gt_cases (i + 1 + 1) limit) as [Hsym_fits | Hsym_over].
      2: { destruct (morse_encode_bit_overflow 1 1 (i + 1) limit e1)
             as (e2 & Hsym & Hov); [lia .. | exact Hlen1 |].
           run_call Hsym. exists (i + 1), e2. split; [reflexivity |].
           exact (enc_ok_overflow _ _ _ Hok1 Hov). }
      destruct (morse_encode_bit_ok 1 1 (i + 1) limit e1) as (e2 & Hsym & Hok2);
        [lia .. |].
      run_call Hsym.
      destruct (IH (i + 1 + 1) limit e2) as (j & e3 & Hrun & Hov);
        [lia .. | eauto using enc_ok_length |].
      rewrite Hrun. exists j, e3. split; [reflexivity |].
      exact (enc_ok_overflow _ _ _ Hok1 (enc_ok_overflow _ _ _ Hok2 Hov)).
    + destruct (Z.le_gt_cases (i + 1 + 3) limit) as [Hsym_fits | Hsym_over].
      2: { destruct (morse_encode_bit_overflow 1 3 (i + 1) limit e1)
             as (e2 & Hsym & Hov); [lia .. | exact Hlen1 |].
           run_call Hsym. exists (i + 1), e2. split; [reflexivity |].
           exact (enc_ok_overflow _ _ _ Hok1 Hov). }
      destruct (morse_encode_bit_ok 1 3 (i + 1) limit e1) as (e2 & Hsym & Hok2);
        [lia .. |].
      run_call Hsym.
      destruct (IH (i + 1 + 3) limit e2) as (j & e3 & Hrun & Hov);
        [lia .. | eauto using enc_ok_length |].
      rewrite Hrun. exists j, e3. split; [reflexivity |].
      exact (enc_ok_overflow _ _ _ Hok1 (enc_ok_overflow _ _ _ Hok2 Hov)).
Qed.

(** ** Emission of one character *)

Lemma morse_encode_char_ok (ch : ascii) (index limit : Z) (e : enc_state) :
  accepted ch = true ->
  32 <= index -> index + char_cost ch <= limit -> limit < 2 ^ 32 ->
  exists e', morse_encode_char ch index limit e = (char_cost ch, e')
             /\ enc_ok e e'.
Proof.
  intros Hacc Hi Hfit Hlim.
  pose proof (accepted_cost ch Hacc) as Hcost.
  unfold morse_encode_char, char_cost, accepted in *.
  destruct (Ascii.eqb (toupper ch) space).
  - destruct (morse_encode_bit_ok 0 4 index limit e) as (e1 & Hrun & Hok);
      [lia .. |].
    run_call Hrun. exists e1. split; [| exact Hok].
    unfold ret, uint8. rewrite Z.mod_small by lia. f_equal. lia.
  - simpl in Hacc. rewrite Hacc. cbn [negb].
    set (series := letters_at (char_code (toupper ch) - OFFSET)) in *.
    pose proof (series_cost_nonneg series) as Hseries.
    destruct (morse_encode_bit_ok 0 2 index limit e) as (e1 & Hgap & Hok1);
      [lia .. |].
    run_call Hgap.
    destruct (morse_encode_series_ok series (index + 2) limit e1)
      as (e2 & Hrun & Hok2); [lia .. |].
    run_call Hrun. exists e2. split; [| eauto using enc_ok_trans].
    unfold ret, uint8. rewrite Z.mod_small by lia. f_equal. lia.
Qed.

Lemma morse_encode_char_overflow (ch : ascii) (index limit : Z) (e : enc_state) :
  accepted ch = true ->
  32 <= index <= limit -> limit < index + char_cost ch ->
  limit + 4 < 2 ^ 32 -> (4 <= length (buf e))%nat ->
  exists e', morse_encode_char ch index limit e = (0, e')
             /\ enc_overflow e e'.
Proof.
  intros Hacc Hi Hover Hlim Hlen.
  unfold morse_encode_char, char_cost, accepted in *.
  destruct (Ascii.eqb (toupper ch) space).
  - destruct (morse_encode_bit_overflow 0 4 index limit e) as (e1 & Hrun & Hov);
      [lia .. | exact Hlen |].
    run_call Hrun. exists e1. split; [reflexivity | exact Hov].
  - simpl in Hacc. rewrite Hacc. cbn [negb].
    set (series := letters_at (char_code (toupper ch) - OFFSET)) in *.
    destruct (Z.le_gt_cases (index + 2) limit) as [Hgap_fits | Hgap_over].
    2: { destruct (morse_encode_bit_overflow 0 2 index limit e)
           as (e1 & Hgap & Hov); [lia .. | exact Hlen |].
         run_call Hgap. exists e1. split; [reflexivity | exact Hov]. }
    destruct (morse_encode_bit_ok 0 2 index limit e) as (e1 & Hgap & Hok1);
      [lia .. |].
    run_call Hgap.
    destruct (morse_encode_series_overflow series (index + 2) limit e1)
      as (j & e2 & Hrun & Hov); [lia .. | eauto using enc_ok_length |].
    run_call Hrun. exists e2. split; [reflexivity |].
    exact (enc_ok_overflow _ _ _ Hok1 Hov).
Qed.

Lemma morse_encode_char_rejected (ch : ascii) (index limit : Z) (e : enc_state) :
  accepted ch = false ->
  morse_encode_char ch index limit e
  = (0, {| buf := buf e; err := err e ++ [InvalidChar ch] |}).
Proof.
  unfold accepted, morse_encode_char.
  intros [-> ->]%orb_false_iff. reflexivity.
Qed.

(** ** Emission of a text *)

Lemma morse_encode_text_prefix (pre : string) :
  forall (rest : string) (i limit : Z) (e : enc_state),
    all_chars accepted pre = true ->
    32 <= i -> i + text_cost pre <= limit -> limit < 2 ^ 32 ->
    exists e',
      morse_encode_text (pre ++ rest) i limit e
      = morse_encode_text rest (i + text_cost pre) limit e'
      /\ enc_ok e e'.
Proof.
  induction pre as [| ch pre IH]; intros rest i limit e Hacc Hi Hfit Hlim.
  - exists e. simpl. rewrite Z.add_0_r. split; [reflexivity | apply enc_ok_refl].
  - cbn [all_chars text_cost append morse_encode_text] in *.
    apply andb_true_iff in Hacc as [Hch Hpre].
    pose proof (accepted_cost ch Hch) as Hcost.
    pose proof (text_cost_nonneg pre Hpre) as Hnonneg.
    rewrite (accepted_not_nul ch Hch).
    destruct (morse_encode_char_ok ch i limit e) as (e1 & Hrun & Hok1);
      [assumption || lia .. |].
    run_call Hrun.
    destruct (Z.eqb_spec (char_cost ch) 0) as [Hz | _]; [lia |].
    unfold uint32. rewrite Z.mod_small by lia.
    destruct (IH rest (i + char_cost ch) limit e1) as (e2 & Hrest & Hok2);
      [assumption || lia .. |].
    exists e2. rewrite Hrest. split; [f_equal; lia | eauto using enc_ok_trans].
Qed.

Lemma append_empty_r (s : string) : (s ++ "")%string = s.
Proof. induction s as [| ch s IH]; simpl; [reflexivity | now rewrite IH]. Qed.

Lemma morse_encode_text_ok (s : string) (i limit : Z) (e : enc_state) :
  all_chars accepted s = true ->
  32 <= i -> i + text_cost s <= limit -> limit < 2 ^ 32 ->
  exists e', morse_encode_text s i limit e = ((true, i + text_cost s), e')
             /\ enc_ok e e'.
Proof.
  intros Hacc Hi Hfit Hlim.
  destruct (morse_encode_text_prefix s "" i limit e) as (e' & Hrun & Hok);
    [assumption .. |].
  rewrite append_empty_r in Hrun. exists e'. split; [exact Hrun | exact Hok].
Qed.

Lemma morse_encode_text_overflow (pre : string) :
  forall (rest : string) (i limit : Z) (e : enc_state),
    all_chars accepted pre = true ->
    32 <= i <= limit -> limit < i + text_cost pre ->
    limit + 4 < 2 ^ 32 -> (4 <= length (buf e))%nat ->
    exists j e',
      morse_encode_text (pre ++ rest) i limit e = ((false, j), e')
      /\ enc_overflow e e'.
Proof.
  induction pre as [| ch pre IH]; intros rest i limit e Hacc Hi Hover Hlim Hlen.
  - simpl in Hover. lia.
  - cbn [all_chars text_cost append morse_encode_text] in *.
    apply andb_true_iff in Hacc as [Hch Hpre].
    pose proof (accepted_cost ch Hch) as Hcost.
    rewrite (accepted_not_nul ch Hch).
    destruct (Z.le_gt_cases (i + char_cost ch) limit) as [Hfits | Hch_over].
    + destruct (morse_encode_char_ok ch i limit e) as (e1 & Hrun & Hok1);
        [assumption || lia .. |].
      run_call Hrun.
      destruct (Z.eqb_spec (char_cost ch) 0) as [Hz | _]; [lia |].
      unfold uint32. rewrite Z.mod_small by lia.
      destruct (IH rest (i + char_cost ch) limit e1) as (j & e2 & Hrest & Hov);
        [assumption || lia .. | eauto using enc_ok_length |].
      exists j, e2. split; [exact Hrest | eauto using enc_ok_overflow].
    + destruct (morse_encode_char_overflow ch i limit e) as (e1 & Hrun & Hov);
        [assumption || lia .. |].
      run_call Hrun. exists i, e1. split; [reflexivity | exact Hov].
Qed.

(** The padding loop emits the text of [j] spaces. *)
Lemma morse_encode_padding_text (j : nat) :
  forall (i limit : Z) (e : enc_state),
    morse_encode_padding j i limit e = morse_encode_text (spaces j) i limit e.
Proof.
  induction j as [| j IH]; intros i limit e; [reflexivity |].
  cbn [morse_encode_padding spaces morse_encode_text].
  change (char_code space =? 0) with false. cbn iota.
  unfold bind. destruct (morse_encode_char space i limit e) as [char_len e1].
  destruct (char_len =? 0); [reflexivity | apply IH].
Qed.

(** ** The encoder as a whole *)

Lemma bit_size_small (size : Z) :
  4 <= size < 2 ^ 29 -> uint32 (size * 8) = 8 * size /\ 8 * size + 4 < 2 ^ 32.
Proof.
  intros H. unfold uint32.
  change (2 ^ 29) with 536870912 in H. change (2 ^ 32) with 4294967296.
  rewrite Z.mod_small by lia. lia.
Qed.

Lemma morse_encode_accepted (s : string) (size : Z) (e : enc_state) :
  all_chars accepted s = true ->
  4 <= size < 2 ^ 29 -> Z.of_nat (length (buf e)) = size ->
  32 + (text_cost s + 12) <= 8 * size ->
  exists e',
    morse_encode s size e = (true, e')
    /\ morse_len (buf e') = text_cost s + 12
    /\ err e' = err e.
Proof.
  intros Hacc Hsize Hlen Hfit.
  destruct (bit_size_small size Hsize) as [Hbits Hlim].
  pose proof (text_cost_nonneg s Hacc) as Hnonneg.
  unfold morse_encode.
  destruct (Z.ltb_spec size 4) as [Hlt | _]; [lia |].
  rewrite Hbits.
  destruct (morse_encode_text_ok s 32 (8 * size) e) as (e1 & Htext & Hok1);
    [assumption || lia .. |].
  run_call Htext.
  destruct (morse_encode_text_ok (spaces 3) (32 + text_cost s) (8 * size) e1)
    as (e2 & Hpad & Hok2);
    [reflexivity | lia | change (text_cost (spaces 3)) with 12; lia | lia |].
  unfold bind at 1. rewrite morse_encode_padding_text, Hpad. cbn [fst snd negb].
  change (text_cost (spaces 3)) with 12.
  eexists. split; [reflexivity |]. cbn [buf err].
  destruct Hok1 as (L1 & _ & E1), Hok2 as (L2 & _ & E2).
  split; [| congruence].
  rewrite morse_len_encode_len.
  - unfold uint32. rewrite Z.mod_small; lia.
  - lia.
  - unfold uint32. apply Z.mod_pos_bound. lia.
Qed.

Lemma morse_encode_overflow (pre rest : string) (size : Z) (e : enc_state) :
  all_chars accepted pre = true ->
  4 <= size < 2 ^ 29 -> Z.of_nat (length (buf e)) = size ->
  8 * size < 32 + text_cost pre
  \/ (rest = EmptyString /\ 8 * size < 32 + (text_cost pre + 12)) ->
  exists e', morse_encode (pre ++ rest) size e = (false, e')
             /\ enc_overflow e e'.
Proof.
  intros Hacc Hsize Hlen Hover.
  destruct (bit_size_small size Hsize) as [Hbits Hlim].
  unfold morse_encode.
  destruct (Z.ltb_spec size 4) as [Hlt | _]; [lia |].
  rewrite Hbits.
  destruct (Z.le_gt_cases (32 + text_cost pre) (8 * size)) as [Hfits | Hin_text].
  - destruct Hover as [Hover | [-> Hover]]; [lia |].
    rewrite append_empty_r.
    destruct (morse_encode_text_ok pre 32 (8 * size) e) as (e1 & Htext & Hok1);
      [assumption || lia .. |].
    run_call Htext.
    destruct (morse_encode_text_overflow (spaces 3) "" (32 + text_cost pre)
                (8 * size) e1) as (j & e2 & Hpad & Hov);
      [reflexivity | pose proof (text_cost_nonneg pre Hacc); lia
      | change (text_cost (spaces 3)) with 12; lia | lia
      | destruct Hok1 as (L1 & _); lia |].
    rewrite append_empty_r in Hpad.
    unfold bind at 1. rewrite morse_encode_padding_text, Hpad. cbn [fst snd negb].
    exists e2. split; [reflexivity |].
    exact (enc_ok_overflow _ _ _ Hok1 Hov).
  - destruct (morse_encode_text_overflow pre rest 32 (8 * size) e)
      as (j & e1 & Htext & Hov); [assumption || lia .. |].
    run_call Htext. exists e1. split; [reflexivity | exact Hov].
Qed.

(** A rejected character after a text that fits: the call fails and the
    length header is the one the buffer had before. *)
Lemma morse_encode_rejected
    (pre : string) (bad : ascii) (rest : string) (size : Z) (e : enc_state) :
  all_chars accepted pre = true ->
  accepted bad = false -> char_code bad <> 0 ->
  4 <= size < 2 ^ 29 -> Z.of_nat (length (buf e)) = size ->
  32 + text_cost pre <= 8 * size ->
  exists e', morse_encode (pre ++ String bad rest) size e = (false, e')
             /\ morse_len (buf e') = morse_len (buf e)
             /\ err e' = err e ++ [InvalidChar bad].
Proof.
  intros Hacc Hbad Hnul Hsize Hlen Hfit.
  destruct (bit_size_small size Hsize) as [Hbits Hlim].
  unfold morse_encode.
  destruct (Z.ltb_spec size 4) as [Hlt | _]; [lia |].
  rewrite Hbits.
  destruct (morse_encode_text_prefix pre (String bad rest) 32 (8 * size) e)
    as (e1 & Htext & (L1 & T1 & E1)); [assumption || lia .. |].
  unfold bind at 1. rewrite Htext.
  cbn [morse_encode_text].
  destruct (Z.eqb_spec (char_code bad) 0) as [Hz | _]; [contradiction |].
  unfold bind at 1. rewrite (morse_encode_char_rejected bad _ _ e1 Hbad).
  cbn. eexists. split; [reflexivity |]. cbn [buf err].
  split; [apply morse_len_take, T1 | now rewrite E1].
Qed.

(** ** Letter case *)

Lemma toupper_out_of_range (ch : ascii) :
  accepted ch = false -> toupper ch = ch.
Proof.
  destruct ch as [[] [] [] [] [] [] [] []]; vm_compute;
    intros H; try discriminate H; reflexivity.
Qed.

Lemma toupper_nul (ch : ascii) :
  (char_code (toupper ch) =? 0) = (char_code ch =? 0).
Proof. destruct ch as [[] [] [] [] [] [] [] []]; reflexivity. Qed.

Lemma accepted_toupper (ch : ascii) : accepted (toupper ch) = accepted ch.
Proof. unfold accepted. now rewrite toupper_idempotent. Qed.

Lemma morse_encode_char_case (ch1 ch2 : ascii) (index limit : Z) (e : enc_state) :
  toupper ch1 = toupper ch2 ->
  morse_encode_char ch1 index limit e = morse_encode_char ch2 index limit e.
Proof.
  intros Hup.
  destruct (accepted ch1) eqn:Hacc.
  - unfold accepted in Hacc. unfold morse_encode_char. rewrite <- Hup.
    destruct (Ascii.eqb (toupper ch1) space); [reflexivity |].
    simpl in Hacc. rewrite Hacc. reflexivity.
  - assert (Hacc2 : accepted ch2 = false)
      by (rewrite <- accepted_toupper, <- Hup, accepted_toupper; exact Hacc).
    rewrite <- (toupper_out_of_range ch1 Hacc), Hup.
    now rewrite (toupper_out_of_range ch2 Hacc2).
Qed.

Lemma morse_encode_text_case (s1 : string) :
  forall (s2 : string) (i limit : Z) (e : enc_state),
    upcase s1 = upcase s2 ->
    morse_encode_text s1 i limit e = morse_encode_text s2 i limit e.
Proof.
  induction s1 as [| ch1 s1 IH]; intros [| ch2 s2] i limit e Hup;
    try discriminate Hup; [reflexivity |].
  simpl in Hup. injection Hup as Hch Hs.
  cbn [morse_encode_text].
  rewrite <- (toupper_nul ch1), Hch, toupper_nul.
  destruct (char_code ch2 =? 0); [reflexivity |].
  unfold bind. rewrite (morse_encode_char_case ch1 ch2 i limit e Hch).
  destruct (morse_encode_char ch2 i limit e) as [char_len e1].
  destruct (char_len =? 0); [reflexivity | apply IH, Hs].
Qed.

(** ** No function of the encoder resizes the buffer *)

Lemma keeps_ret {A : Type} (a : A) : keeps_length (ret a).
Proof. intros e. reflexivity. Qed.

Lemma keeps_bind {A B : Type} (m : Enc A) (k : A -> Enc B) :
  keeps_length m -> (forall a, keeps_length (k a)) -> keeps_length (bind m k).
Proof.
  intros Hm Hk e. unfold bind. specialize (Hm e).
  destruct (m e) as [a e1]. simpl in Hm. rewrite (Hk a e1). exact Hm.
Qed.

Lemma keeps_poke (i v : Z) : keeps_length (poke i v).
Proof. intros e. unfold poke, store. simpl. apply length_insert. Qed.

Lemma keeps_peek (i : Z) : keeps_length (peek i).
Proof. intros e. reflexivity. Qed.

Lemma keeps_fprintf (d : diag) : keeps_length (fprintf_stderr d).
Proof. intros e. reflexivity. Qed.

Lemma keeps_on_buf (f : buffer -> buffer) :
  (forall b, length (f b) = length b) -> keeps_length (on_buf f).
Proof. intros Hf e. simpl. apply Hf. Qed.

(** Decomposes a sequence of calls; [known] closes the calls of functions
    already shown to keep the length. *)
Ltac keeps_with known :=
  repeat first
    [ known
    | apply keeps_ret | apply keeps_poke | apply keeps_peek
    | apply keeps_fprintf
    | match goal with
      | |- keeps_length (if ?b then _ else _) => destruct b
      | |- keeps_length (bind _ _) => apply keeps_bind; [| intros ?]
      end ].

Lemma keeps_morse_encode_bit_loop (count : nat) :
  forall value i limit, keeps_length (morse_encode_bit_loop count value i limit).
Proof.
  induction count as [| count IH]; intros value i limit;
    cbn [morse_encode_bit_loop]; keeps_with ltac:(apply IH).
Qed.

Lemma keeps_morse_encode_bit (value n index limit : Z) :
  keeps_length (morse_encode_bit value n index limit).
Proof.
  unfold morse_encode_bit.
  keeps_with ltac:(apply keeps_morse_encode_bit_loop).
Qed.

Lemma keeps_morse_encode_series (series : string) :
  forall i limit, keeps_length (morse_encode_series series i limit).
Proof.
  induction series as [| element rest IH]; intros i limit;
    cbn [morse_encode_series];
    keeps_with ltac:(first [apply keeps_morse_encode_bit | apply IH]).
Qed.

Lemma keeps_morse_encode_char (ch : ascii) (index limit : Z) :
  keeps_length (morse_encode_char ch index limit).
Proof.
  unfold morse_encode_char;
    keeps_with ltac:(first [ apply keeps_morse_encode_bit
                           | apply keeps_morse_encode_series ]).
Qed.

Lemma keeps_morse_encode_text (s : string) :
  forall i limit, keeps_length (morse_encode_text s i limit).
Proof.
  induction s as [| ch s IH]; intros i limit;
    cbn [morse_encode_text];
    keeps_with ltac:(first [apply keeps_morse_encode_char | apply IH]).
Qed.

Lemma keeps_morse_encode_padding (j : nat) :
  forall i limit, keeps_length (morse_encode_padding j i limit).
Proof.
  induction j as [| j IH]; intros i limit;
    cbn [morse_encode_padding];
    keeps_with ltac:(first [apply keeps_morse_encode_char | apply IH]).
Qed.

Lemma keeps_morse_encode (s : string) (size : Z) :
  keeps_length (morse_encode s size).
Proof.
  unfold morse_encode;
    keeps_with ltac:(first
      [ apply keeps_morse_encode_text | apply keeps_morse_encode_padding
      | apply keeps_on_buf; intros b; apply length_morse_encode_len ]).
Qed.

(** ** The buffer pair *)

Lemma deref_assign_same (st : state) (p : bufptr) (b : buffer) :
  deref (assign st p b) p = b.
Proof. destruct p; reflexivity. Qed.

Lemma deref_assign_other (st : state) (p q : bufptr) (b : buffer) :
  p <> q -> deref (assign st p b) q = deref st q.
Proof. destruct p, q; intros H; try reflexivity; contradiction. Qed.

Lemma wf_length (st : state) (p : bufptr) :
  wf st -> Z.of_nat (length (deref st p)) = MORSE_MAX_LEN.
Proof. intros (_ & L1 & L2 & _). destruct p; assumption. Qed.

Lemma wf_assign (st : state) (p : bufptr) (b : buffer) :
  wf st -> length b = length (deref st p) -> wf (assign st p b).
Proof.
  intros (Hne & L1 & L2 & Ht) Hb. unfold wf.
  destruct p; simpl in *; rewrite ?Hb; auto.
Qed.

Lemma morse_switch_buf_spec (st : state) :
  morse_live_buf st <> morse_next_buf st ->
  let st' := morse_switch_buf st in
  morse_live_buf st' = morse_next_buf st
  /\ morse_next_buf st' = morse_live_buf st
  /\ deref st' (morse_live_buf st') = deref st (morse_next_buf st)
  /\ deref st' (morse_next_buf st')
     = morse_encode_len (deref st (morse_live_buf st)) 0
  /\ morse_repeat st' = morse_repeat_next st
  /\ morse_repeat_next st' = false
  /\ morse_elapsed_time st' = morse_elapsed_time st
  /\ stderr st' = stderr st.
Proof.
  intros Hne. destruct st as [b1 b2 [] [] r rn t log]; simpl in Hne;
    try contradiction; cbv [morse_switch_buf]; simpl; repeat split.
Qed.

Lemma wf_init : wf init.
Proof. unfold wf, init. simpl. repeat split; try discriminate; lia. Qed.

Lemma wf_morse (st : state) (s : string) (repeat : bool) :
  wf st -> wf (morse st s repeat).
Proof.
  intros Hwf. unfold morse.
  set (e := snd (morse_encode s MORSE_MAX_LEN _)).
  assert (Hlen : length (buf e) = length (deref st (morse_next_buf st)))
    by (subst e; apply (keeps_morse_encode s MORSE_MAX_LEN)).
  pose proof (wf_assign st (morse_next_buf st) (buf e) Hwf Hlen) as H.
  destruct H as (Hne & L1 & L2 & Ht). unfold wf.
  destruct (morse_next_buf st); simpl in *; auto.
Qed.

Lemma wf_switch (st : state) : wf st -> wf (morse_switch_buf st).
Proof.
  intros (Hne & L1 & L2 & Ht).
  destruct st as [b1 b2 [] [] r rn t log]; simpl in *;
    try contradiction; cbv [morse_switch_buf wf]; simpl;
    rewrite length_morse_encode_len; repeat split; auto; try lia; discriminate.
Qed.

Lemma wf_set_elapsed_time (st : state) (t : Z) :
  wf st -> 0 <= t < 2 ^ 32 -> wf (set_elapsed_time t st).
Proof. intros (Hne & L1 & L2 & Ht) H. repeat split; simpl; auto; lia. Qed.

Lemma uint32_range (z : Z) : 0 <= uint32 z < 2 ^ 32.
Proof. unfold uint32. apply Z.mod_pos_bound. lia. Qed.

Lemma wf_morse_update (st : state) (elapsed_ms : Z) :
  wf st -> wf (fst (morse_update st elapsed_ms)).
Proof.
  intros Hwf. unfold morse_update.
  destruct (_ && _); [exact Hwf |]. cbn [fst].
  pose proof (wf_set_elapsed_time st _ Hwf
                (uint32_range (morse_elapsed_time st + elapsed_ms))) as H1.
  destruct (_ <=? _); [| exact H1].
  apply wf_set_elapsed_time; [| lia].
  destruct (negb _); [apply wf_switch, H1 | exact H1].
Qed.

Lemma wf_morse_stop (st : state) : wf st -> wf (morse_stop st).
Proof. intros H. exact H. Qed.

Lemma wf_morse_interrupt (st : state) : wf st -> wf (morse_interrupt st).
Proof.
  intros Hwf. unfold morse_interrupt.
  pose proof (wf_assign st (morse_live_buf st)
                (morse_encode_len (deref st (morse_live_buf st)) 0) Hwf
                (length_morse_encode_len _ _)) as H.
  exact H.
Qed.

Lemma reachable_wf (st : state) : reachable st -> wf st.
Proof.
  induction 1;
    auto using wf_init, wf_morse, wf_morse_update, wf_morse_stop,
      wf_morse_interrupt.
Qed.

(** ** One tick *)

Lemma tick_index_nonneg (st : state) (elapsed_ms : Z) :
  0 <= tick_index st elapsed_ms.
Proof.
  unfold tick_index, morse_dot_duration.
  pose proof (uint32_range (morse_elapsed_time st + elapsed_ms)).
  apply Z.div_pos; lia.
Qed.

Lemma deref_set_elapsed_time (st : state) (t : Z) (p : bufptr) :
  deref (set_elapsed_time t st) p = deref st p.
Proof. destruct p; reflexivity. Qed.

(** A tick inside the live message: time advances and the bit under the
    new index is passed to the sink. *)
Lemma morse_update_playing (st : state) (elapsed_ms : Z) :
  tick_index st elapsed_ms < morse_len (deref st (morse_live_buf st)) ->
  morse_update st elapsed_ms
  = (set_elapsed_time (uint32 (morse_elapsed_time st + elapsed_ms)) st,
     [morse_bit (deref st (morse_live_buf st)) (tick_index st elapsed_ms)]).
Proof.
  intros Hlt. pose proof (tick_index_nonneg st elapsed_ms) as Hpos.
  unfold morse_update. fold (tick_index st elapsed_ms).
  destruct (Z.eqb_spec (morse_len (deref st (morse_live_buf st))) 0)
    as [Hz | _]; [lia |].
  cbn [andb morse_elapsed_time set_elapsed_time].
  fold (tick_index st elapsed_ms).
  destruct (Z.leb_spec (morse_len (deref st (morse_live_buf st)))
              (tick_index st elapsed_ms)) as [Hle | _]; [lia |].
  cbn [morse_live_buf]. rewrite deref_set_elapsed_time. reflexivity.
Qed.

(** A tick at or past the end of the live message, not repeating: the roles
    are exchanged and the sink is given the bit of the new live buffer at
    the index computed before the exchange. *)
Lemma morse_update_swap (st : state) (elapsed_ms : Z) :
  morse_live_buf st <> morse_next_buf st ->
  morse_len (deref st (morse_live_buf st)) <> 0
  \/ morse_len (deref st (morse_next_buf st)) <> 0 ->
  morse_len (deref st (morse_live_buf st)) <= tick_index st elapsed_ms ->
  morse_repeat st = false ->
  morse_update st elapsed_ms
  = (set_elapsed_time 0
       (morse_switch_buf
          (set_elapsed_time (uint32 (morse_elapsed_time st + elapsed_ms)) st)),
     [morse_bit (deref st (morse_next_buf st)) (tick_index st elapsed_ms)]).
Proof.
  intros Hne Hbusy Hend Hrep.
  unfold morse_update. fold (tick_index st elapsed_ms).
  assert (Hidle : (morse_len (deref st (morse_live_buf st)) =? 0)
                  && (morse_len (deref st (morse_next_buf st)) =? 0) = false).
  { apply andb_false_iff. rewrite !Z.eqb_neq. exact Hbusy. }
  rewrite Hidle.
  cbn [morse_elapsed_time set_elapsed_time morse_repeat].
  fold (tick_index st elapsed_ms).
  destruct (Z.leb_spec (morse_len (deref st (morse_live_buf st)))
              (tick_index st elapsed_ms)) as [_ | Hlt]; [| lia].
  rewrite Hrep. cbn [negb].
  set (st1 := set_elapsed_time (uint32 (morse_elapsed_time st + elapsed_ms)) st).
  destruct (morse_switch_buf_spec st1 Hne) as (Hlive & _ & Hbuf & _).
  f_equal. f_equal.
  change (morse_live_buf (set_elapsed_time 0 (morse_switch_buf st1)))
    with (morse_live_buf (morse_switch_buf st1)).
  rewrite deref_set_elapsed_time, Hbuf. subst st1.
  cbn [morse_next_buf set_elapsed_time]. now rewrite deref_set_elapsed_time.
Qed.

(** ** Queuing *)

Lemma morse_frame (st : state) (s : string) (repeat : bool) :
  morse_live_buf st <> morse_next_buf st ->
  morse_live_buf (morse st s repeat) = morse_live_buf st
  /\ morse_next_buf (morse st s repeat) = morse_next_buf st
  /\ deref (morse st s repeat) (morse_live_buf st)
     = deref st (morse_live_buf st)
  /\ morse_elapsed_time (morse st s repeat) = morse_elapsed_time st.
Proof.
  intros Hne. unfold morse.
  destruct st as [b1 b2 [] [] r rn t log]; simpl in Hne; try contradiction;
    repeat split.
Qed.

Lemma same_live_tick (st1 st2 : state) (elapsed_ms : Z) :
  same_live st1 st2 ->
  tick_index st2 elapsed_ms < morse_len (deref st2 (morse_live_buf st2)) ->
  snd (morse_update st1 elapsed_ms) = snd (morse_update st2 elapsed_ms)
  /\ same_live (fst (morse_update st1 elapsed_ms))
               (fst (morse_update st2 elapsed_ms)).
Proof.
  intros (Hptr & Hbuf & Htime) Hlt.
  assert (Hidx : tick_index st1 elapsed_ms = tick_index st2 elapsed_ms)
    by (unfold tick_index; now rewrite Htime).
  rewrite (morse_update_playing st2 elapsed_ms Hlt).
  rewrite (morse_update_playing st1 elapsed_ms)
    by (rewrite Hidx, Hbuf; exact Hlt).
  cbn [fst snd]. split; [now rewrite Hidx, Hbuf |].
  unfold same_live. cbn [morse_live_buf morse_elapsed_time set_elapsed_time].
  rewrite !deref_set_elapsed_time, Htime. auto.
Qed.

Lemma same_live_run (ticks : list Z) :
  forall st1 st2 : state,
    same_live st1 st2 -> before_boundary st2 ticks = true ->
    snd (run_ticks st1 ticks) = snd (run_ticks st2 ticks).
Proof.
  induction ticks as [| ms ticks IH]; intros st1 st2 Hsame Hbefore;
    [reflexivity |].
  cbn [before_boundary] in Hbefore.
  apply andb_true_iff in Hbefore as [Hlt%Z.ltb_lt Hrest].
  destruct (same_live_tick st1 st2 ms Hsame Hlt) as [Hout Hnext].
  specialize (IH _ _ Hnext Hrest).
  cbn [run_ticks].
  destruct (morse_update st1 ms) as [st1' out1].
  destruct (morse_update st2 ms) as [st2' out2].
  cbn [fst snd] in *.
  destruct (run_ticks st1' ticks) as [st1'' outs1].
  destruct (run_ticks st2' ticks) as [st2'' outs2].
  cbn [snd] in *. now rewrite Hout, IH.
Qed.

(** ** Interruption *)

Lemma morse_interrupt_spec (st : state) :
  morse_live_buf st <> morse_next_buf st ->
  let st' := morse_interrupt st in
  morse_live_buf st' = morse_live_buf st
  /\ morse_next_buf st' = morse_next_buf st
  /\ deref st' (morse_live_buf st)
     = morse_encode_len (deref st (morse_live_buf st)) 0
  /\ deref st' (morse_next_buf st) = deref st (morse_next_buf st)
  /\ morse_repeat st' = false
  /\ morse_elapsed_time st' = morse_elapsed_time st
  /\ morse_repeat_next st' = morse_repeat_next st
  /\ stderr st' = stderr st.
Proof.
  intros Hne. unfold morse_interrupt.
  destruct st as [b1 b2 [] [] r rn t log]; simpl in Hne; try contradiction;
    repeat split.
Qed.

(** ** Reads inside the array *)

Lemma land_1_odd (x : Z) : negb (Z.land x 1 =? 0) = Z.odd x.
Proof.
  change 1 with (Z.ones 1). rewrite Z.land_ones by lia.
  change (2 ^ 1) with 2. rewrite Zmod_odd. now destruct (Z.odd x).
Qed.

(** Inside the array [morse_bit] is the bit 32 places further. *)
Lemma morse_bit_bit_at (b : buffer) (k : Z) :
  0 <= k -> k + 32 < 8 * Z.of_nat (length b) -> k + 32 < 2 ^ 32 ->
  morse_bit b k = Some (bit_at b (32 + k)).
Proof.
  intros Hk Hin Hlim. unfold morse_bit, bit_at, load, uint32.
  rewrite (Z.mod_small (k + 32) (2 ^ 32)) by lia. rewrite (Z.add_comm k 32).
  destruct (lookup_lt_is_Some_2 b (Z.to_nat ((32 + k) / 8))) as [byte Hbyte];
    [Z.div_mod_to_equations; lia |].
  rewrite Hbyte. cbn [fmap option_fmap option_map default from_option].
  now rewrite land_1_odd, Z.testbit_odd.
Qed.



(** * Main results *)

(** C1: a text of characters from [{0-9, A-Z, a-z, space}] whose encoding
    fits the bit capacity of the buffer is encoded with success, and the
    length header then holds the sum of the unit costs of its characters
    (4 for a space; 2 and the cost of the table entry for a letter or digit)
    plus the 12 units of the three trailing spaces.  Nothing is written to
    stderr. *)
Theorem encode_length_is_unit_cost (s : string) (size : Z) (e : enc_state) :
  all_chars supported s = true ->
  4 <= size < 2 ^ 29 -> Z.of_nat (length (buf e)) = size ->
  32 + (text_cost s + 12) <= 8 * size ->
  exists e',
    morse_encode s size e = (true, e')
    /\ morse_len (buf e') = text_cost s + 12
    /\ err e' = err e.
Proof.
  intros Hsup. apply morse_encode_accepted.
  exact (all_chars_impl supported accepted s supported_accepted Hsup).
Qed.

Lemma encode_length_is_unit_cost_witness :
  exists e',
    morse_encode "Sos 73" MORSE_MAX_LEN fresh = (true, e')
    /\ morse_len (buf e') = text_cost "Sos 73" + 12
    /\ err e' = err fresh.
Proof.
  apply (encode_length_is_unit_cost "Sos 73" MORSE_MAX_LEN fresh).
  - reflexivity.
  - vm_compute. split; [discriminate | reflexivity].
  - reflexivity.
  - vm_compute. discriminate.
Defined.

(** C2 (amended): in a reachable state, a tick that is processed (not both
    buffers empty), finds the bit index at or past the live length, finds
    [morse_repeat] false and whose bit index lies inside the array
    ([bit_index + 32 < 8 * MORSE_MAX_LEN]) exchanges the roles of the two
    buffers, and calls the sink once with the bit of the new live buffer
    (the former next buffer, content unchanged) at the bit index computed
    before the exchange, not at index 0; the elapsed time restarts at 0.
    Nothing is said of a tick whose index leaves the array. *)
Theorem swap_reads_pre_swap_index (st : state) (elapsed_ms : Z) :
  reachable st ->
  morse_len (deref st (morse_live_buf st)) <> 0
  \/ morse_len (deref st (morse_next_buf st)) <> 0 ->
  morse_len (deref st (morse_live_buf st)) <= tick_index st elapsed_ms ->
  morse_repeat st = false ->
  tick_index st elapsed_ms + 32 < 8 * MORSE_MAX_LEN ->
  let st' := fst (morse_update st elapsed_ms) in
  morse_live_buf st' = morse_next_buf st
  /\ morse_next_buf st' = morse_live_buf st
  /\ deref st' (morse_live_buf st') = deref st (morse_next_buf st)
  /\ morse_elapsed_time st' = 0
  /\ snd (morse_update st elapsed_ms)
     = [morse_bit (deref st' (morse_live_buf st')) (tick_index st elapsed_ms)]
  /\ morse_bit (deref st' (morse_live_buf st')) (tick_index st elapsed_ms)
     = Some (bit_at (deref st (morse_next_buf st))
                    (32 + tick_index st elapsed_ms)).
Proof.
  intros Hreach Hbusy Hend Hrep Hin.
  pose proof (reachable_wf st Hreach) as Hwf.
  pose proof (wf_length st (morse_next_buf st) Hwf) as Hlen.
  pose proof (tick_index_nonneg st elapsed_ms) as Hpos.
  destruct Hwf as (Hne & _).
  rewrite (morse_update_swap st elapsed_ms Hne Hbusy Hend Hrep).
  cbn [fst snd].
  set (st1 := set_elapsed_time (uint32 (morse_elapsed_time st + elapsed_ms)) st).
  destruct (morse_switch_buf_spec st1 Hne) as (Hlive & Hnext & Hbuf & _).
  change (morse_live_buf (set_elapsed_time 0 (morse_switch_buf st1)))
    with (morse_live_buf (morse_switch_buf st1)).
  change (morse_next_buf (set_elapsed_time 0 (morse_switch_buf st1)))
    with (morse_next_buf (morse_switch_buf st1)).
  rewrite deref_set_elapsed_time, Hbuf, Hlive, Hnext.
  subst st1. cbn [morse_next_buf morse_live_buf set_elapsed_time].
  rewrite deref_set_elapsed_time.
  do 5 (split; [reflexivity |]).
  unfold MORSE_MAX_LEN in *. apply morse_bit_bit_at; lia.
Qed.

(** "E" (16 units) is live and "0" is queued; the tick that reaches unit 16
    passes bit 16 of "0", which is on, where bit 0 of "0" is off. *)
Lemma swap_reads_pre_swap_index_witness :
  snd (morse_update queued_0 960) = [Some true]
  /\ morse_bit (deref queued_0 (morse_next_buf queued_0)) 0 = Some false.
Proof.
  split; [| vm_compute; reflexivity].
  destruct (swap_reads_pre_swap_index queued_0 960)
    as (_ & _ & _ & _ & Hout & Hbit).
  - unfold queued_0, playing_E.
    apply reach_morse, reach_update; [apply reach_morse, reach_init | lia].
  - left. vm_compute. discriminate.
  - vm_compute. discriminate.
  - reflexivity.
  - vm_compute. reflexivity.
  - rewrite Hout, Hbit. vm_compute. reflexivity.
Defined.

(** C2 as first stated fails where the index leaves the array.  The
    8160 units of [full_live] fill its buffer; the next tick of one dot
    duration finds the bit index 8160 at the live length with [morse_repeat]
    false, and the read after the exchange is at byte 1024 of an array of
    1024 bytes: no bit of the new live buffer is passed. *)
Lemma swap_read_leaves_the_array :
  reachable full_live
  /\ morse_len (deref full_live (morse_live_buf full_live)) = 8160
  /\ tick_index full_live 60 = 8160
  /\ morse_repeat full_live = false
  /\ (let st' := fst (morse_update full_live 60) in
      length (deref st' (morse_live_buf st')) = 1024%nat
      /\ (tick_index full_live 60 + 32) / 8 = 1024
      /\ morse_bit (deref st' (morse_live_buf st')) (tick_index full_live 60)
         = None)
  /\ snd (morse_update full_live 60) = [None]
  /\ (forall v : bool, snd (morse_update full_live 60) <> [Some v]).
Proof.
  split.
  { unfold full_live.
    apply reach_update; [| lia].
    apply reach_update; [apply reach_morse, reach_init | lia]. }
  assert (Hout : snd (morse_update full_live 60) = [None])
    by (vm_compute; reflexivity).
  repeat split; try (vm_compute; reflexivity).
  intros v Hv. rewrite Hout in Hv. discriminate Hv.
Qed.

(** C3 (the code differs): a rejected character makes the call fail and
    stops it, but the header is left as it was.  The buffer below holds "E"
    (header 16); after "Hi!" is refused the header is still 16, over bits
    that are now those of "HI". *)
Theorem invalid_char_keeps_old_header :
  let e := snd (morse_encode "E" MORSE_MAX_LEN fresh) in
  morse_len (buf e) = 16
  /\ fst (morse_encode "Hi!" MORSE_MAX_LEN e) = false
  /\ morse_len (buf (snd (morse_encode "Hi!" MORSE_MAX_LEN e))) = 16
  /\ err (snd (morse_encode "Hi!" MORSE_MAX_LEN e)) = [InvalidChar "!"]
  /\ take 2 (drop 4 (buf (snd (morse_encode "Hi!" MORSE_MAX_LEN e))))
     <> take 2 (drop 4 (buf e)).
Proof. vm_compute. repeat split. discriminate. Qed.

(** C4 (the code differs): the range test lets the characters between '9'
    and 'A' through.  For ':' the entry 10 of the table, an empty one, is
    looked up, and the text ":" is encoded with success as 2 + 12 off
    units, with no diagnostic. *)
Theorem gap_char_is_looked_up :
  in_range (toupper ":") = true
  /\ char_code (toupper ":") - OFFSET = 10
  /\ letters_at 10 = EmptyString
  /\ fst (morse_encode_char ":" 32 (MORSE_MAX_LEN * 8) fresh) = 2
  /\ fst (morse_encode ":" MORSE_MAX_LEN fresh) = true
  /\ morse_len (buf (snd (morse_encode ":" MORSE_MAX_LEN fresh))) = 14
  /\ err (snd (morse_encode ":" MORSE_MAX_LEN fresh)) = [].
Proof. vm_compute. repeat split. Qed.

(** C5: when the emission runs past the bit capacity, either inside the
    text (after the accepted characters [pre], whatever follows them) or
    inside the trailing padding, the call stops there: it returns failure,
    bytes 0 to 3 of the buffer are zero, and stderr has received the one
    diagnostic of the overflow. *)
Theorem encode_overflow_zeroes_header
    (pre rest : string) (size : Z) (e : enc_state) :
  all_chars accepted pre = true ->
  4 <= size < 2 ^ 29 -> Z.of_nat (length (buf e)) = size ->
  8 * size < 32 + text_cost pre
  \/ (rest = EmptyString /\ 8 * size < 32 + (text_cost pre + 12)) ->
  exists e',
    morse_encode (pre ++ rest) size e = (false, e')
    /\ take 4 (buf e') = [0; 0; 0; 0]
    /\ morse_len (buf e') = 0
    /\ err e' = err e ++ [LimitReached].
Proof.
  intros Hacc Hsize Hlen Hover.
  destruct (morse_encode_overflow pre rest size e Hacc Hsize Hlen Hover)
    as (e' & Hrun & _ & Hhead & Herr).
  exists e'. auto using morse_len_zero_header.
Qed.

Lemma encode_overflow_zeroes_header_witness :
  exists e',
    morse_encode ("sos" ++ "!") 5 {| buf := [0; 0; 0; 16; 8]; err := [] |}
    = (false, e')
    /\ take 4 (buf e') = [0; 0; 0; 0]
    /\ morse_len (buf e') = 0
    /\ err e' = [] ++ [LimitReached].
Proof.
  apply (encode_overflow_zeroes_header "sos" "!" 5
           {| buf := [0; 0; 0; 16; 8]; err := [] |}).
  - reflexivity.
  - vm_compute. split; [discriminate | reflexivity].
  - reflexivity.
  - left. vm_compute. reflexivity.
Defined.




(** C7: in a reachable state, [morse] leaves the live pointer and every
    byte of the live buffer as they are (it writes into the next buffer);
    hence over any run of ticks that stay before the end of the live
    message, the values passed to the sink are the same with and without
    the call. *)
Theorem submit_keeps_live_playback
    (st : state) (s : string) (repeat : bool) (ticks : list Z) :
  reachable st ->
  morse_live_buf (morse st s repeat) = morse_live_buf st
  /\ deref (morse st s repeat) (morse_live_buf st) = deref st (morse_live_buf st)
  /\ (before_boundary st ticks = true ->
      snd (run_ticks (morse st s repeat) ticks) = snd (run_ticks st ticks)).
Proof.
  intros Hreach.
  destruct (reachable_wf st Hreach) as (Hne & _).
  destruct (morse_frame st s repeat Hne) as (Hlive & _ & Hbuf & Htime).
  split; [exact Hlive |]. split; [exact Hbuf |].
  apply same_live_run. unfold same_live. rewrite Hlive. auto.
Qed.

(** "E" repeats; "B" is queued during the first pass. *)
Lemma submit_keeps_live_playback_witness :
  deref (morse repeating_E "B" false) (morse_live_buf repeating_E)
  = deref repeating_E (morse_live_buf repeating_E)
  /\ snd (run_ticks (morse repeating_E "B" false) [60; 60; 60; 700])
     = [Some false; Some false; Some true; Some false].
Proof.
  destruct (submit_keeps_live_playback repeating_E "B" false [60; 60; 60; 700])
    as (_ & Hbuf & Hrun).
  - unfold repeating_E.
    apply reach_update; [apply reach_morse, reach_init | lia].
  - split; [exact Hbuf |].
    rewrite Hrun by (vm_compute; reflexivity).
    vm_compute. reflexivity.
Defined.

(** C8: two texts that differ in the case of letters only are encoded
    alike: the same flag is returned, and the buffer (length header and
    bits) and stderr are the same afterwards. *)
Theorem encode_case_insensitive
    (s1 s2 : string) (size : Z) (e : enc_state) :
  upcase s1 = upcase s2 ->
  morse_encode s1 size e = morse_encode s2 size e.
Proof.
  intros Hup. unfold morse_encode.
  destruct (size <? 4); [reflexivity |].
  unfold bind at 1 3.
  now rewrite (morse_encode_text_case s1 s2 32 (uint32 (size * 8)) e Hup).
Qed.

Lemma encode_case_insensitive_witness :
  morse_encode "sos" MORSE_MAX_LEN fresh = morse_encode "SOS" MORSE_MAX_LEN fresh.
Proof.
  apply (encode_case_insensitive "sos" "SOS" MORSE_MAX_LEN fresh).
  reflexivity.
Defined.

(** C9: whatever [morse_encode] returns, [morse] sets [morse_repeat_next]
    to its argument and clears [morse_repeat]; so in a reachable state the
    next tick that is processed at or past the end of the live message
    exchanges the buffers, also after a failed call and also when the live
    message was repeating. *)
Theorem submit_sets_flags_unconditionally
    (st : state) (s : string) (repeat : bool) :
  morse_repeat_next (morse st s repeat) = repeat
  /\ morse_repeat (morse st s repeat) = false
  /\ forall elapsed_ms : Z,
       reachable st ->
       let st1 := morse st s repeat in
       morse_len (deref st1 (morse_live_buf st1)) <> 0
       \/ morse_len (deref st1 (morse_next_buf st1)) <> 0 ->
       morse_len (deref st1 (morse_live_buf st1)) <= tick_index st1 elapsed_ms ->
       morse_live_buf (fst (morse_update st1 elapsed_ms)) = morse_next_buf st
       /\ morse_repeat (fst (morse_update st1 elapsed_ms)) = repeat.
Proof.
  split; [reflexivity |]. split; [reflexivity |].
  intros elapsed_ms Hreach st1 Hbusy Hend.
  destruct (reachable_wf st1 (reach_morse st s repeat Hreach)) as (Hne1 & _).
  destruct (reachable_wf st Hreach) as (Hne & _).
  destruct (morse_frame st s repeat Hne) as (_ & Hnext & _).
  rewrite (morse_update_swap st1 elapsed_ms Hne1 Hbusy Hend eq_refl).
  cbn [fst].
  set (st2 := set_elapsed_time (uint32 (morse_elapsed_time st1 + elapsed_ms)) st1).
  destruct (morse_switch_buf_spec st2 Hne1) as (Hlive & _ & _ & _ & Hrep & _).
  change (morse_live_buf (set_elapsed_time 0 (morse_switch_buf st2)))
    with (morse_live_buf (morse_switch_buf st2)).
  change (morse_repeat (set_elapsed_time 0 (morse_switch_buf st2)))
    with (morse_repeat (morse_switch_buf st2)).
  rewrite Hlive, Hrep. split; [exact Hnext | reflexivity].
Qed.

(** "E" repeats; "Hi!" is refused; the pass of "E" that was running is its
    last. *)
Lemma submit_sets_flags_unconditionally_witness :
  morse_repeat repeating_E = true
  /\ fst (morse_encode "Hi!" MORSE_MAX_LEN
            {| buf := deref repeating_E (morse_next_buf repeating_E);
               err := stderr repeating_E |}) = false
  /\ morse_repeat (morse repeating_E "Hi!" true) = false
  /\ morse_live_buf (fst (morse_update (morse repeating_E "Hi!" true) 960))
     = morse_next_buf repeating_E.
Proof.
  destruct (submit_sets_flags_unconditionally repeating_E "Hi!" true)
    as (_ & Hrep & Htick).
  split; [vm_compute; reflexivity |].
  split; [vm_compute; reflexivity |].
  split; [exact Hrep |].
  apply (Htick 960).
  - unfold repeating_E.
    apply reach_update; [apply reach_morse, reach_init | lia].
  - left. vm_compute. discriminate.
  - vm_compute. discriminate.
Defined.

(** C10: in a reachable state [morse_interrupt] zeroes the length header of
    the live buffer and clears [morse_repeat], and nothing else: the
    elapsed time, [morse_repeat_next], both pointers, the next buffer, the
    bytes of the live buffer from index 4 on and stderr are unchanged.  The
    elapsed time kept is the one the next tick starts from: with a message
    queued, that tick passes the bit at the index counted from it. *)
Theorem interrupt_frame (st : state) :
  reachable st ->
  let st' := morse_interrupt st in
  morse_len (deref st' (morse_live_buf st')) = 0
  /\ morse_repeat st' = false
  /\ morse_elapsed_time st' = morse_elapsed_time st
  /\ morse_repeat_next st' = morse_repeat_next st
  /\ morse_live_buf st' = morse_live_buf st
  /\ morse_next_buf st' = morse_next_buf st
  /\ deref st' (morse_next_buf st') = deref st (morse_next_buf st)
  /\ (forall i : nat,
        (4 <= i)%nat ->
        deref st' (morse_live_buf st') !! i = deref st (morse_live_buf st) !! i)
  /\ length (deref st' (morse_live_buf st'))
     = length (deref st (morse_live_buf st))
  /\ stderr st' = stderr st
  /\ (forall elapsed_ms : Z,
        morse_len (deref st (morse_next_buf st)) <> 0 ->
        snd (morse_update st' elapsed_ms)
        = [morse_bit (deref st (morse_next_buf st))
                     (uint32 (morse_elapsed_time st + elapsed_ms)
                      / morse_dot_duration)]).
Proof.
  intros Hreach st'.
  pose proof (reachable_wf st Hreach) as Hwf.
  pose proof (wf_length st (morse_live_buf st) Hwf) as Hlen.
  destruct Hwf as (Hne & _).
  destruct (morse_interrupt_spec st Hne)
    as (Hlive & Hnext & Hlivebuf & Hnextbuf & Hrep & Htime & Hrn & Hlog).
  fold st' in Hlive, Hnext, Hlivebuf, Hnextbuf, Hrep, Htime, Hrn, Hlog.
  assert (Hzero : morse_len (deref st' (morse_live_buf st')) = 0).
  { rewrite Hlive, Hlivebuf. apply morse_len_encode_len; [| lia].
    unfold MORSE_MAX_LEN in Hlen. lia. }
  rewrite Hnext, Hlive, Hnextbuf, Hlivebuf.
  repeat match goal with |- _ /\ _ => split end;
    try assumption; try reflexivity.
  - rewrite <- Hlivebuf, <- Hlive. exact Hzero.
  - intros i Hi. apply morse_encode_len_tail, Hi.
  - apply length_morse_encode_len.
  - intros elapsed_ms Hqueued.
    rewrite (morse_update_swap st' elapsed_ms).
    + cbn [snd]. unfold tick_index. now rewrite Hnext, Hnextbuf, Htime.
    + now rewrite Hlive, Hnext.
    + right. now rewrite Hnext, Hnextbuf.
    + rewrite Hzero. apply tick_index_nonneg.
    + exact Hrep.
Qed.

(** "E" has played for 120 ms and "0" is queued; after the interrupt a tick
    of 840 ms passes bit 16 of "0". *)
Lemma interrupt_frame_witness :
  morse_elapsed_time (morse_interrupt (fst (morse_update queued_0 120))) = 120
  /\ snd (morse_update (morse_interrupt (fst (morse_update queued_0 120))) 840)
     = [Some true].
Proof.
  destruct (interrupt_frame (fst (morse_update queued_0 120)))
    as (_ & _ & Htime & _ & _ & _ & _ & _ & _ & _ & Htick).
  - unfold queued_0, playing_E.
    apply reach_update; [| lia].
    apply reach_morse, reach_update; [apply reach_morse, reach_init | lia].
  - split; [rewrite Htime; vm_compute; reflexivity |].
    rewrite Htick by (vm_compute; discriminate).
    vm_compute. reflexivity.
Defined.

(** * Further properties *)

(** ** The bits the encoder writes *)

Lemma testbit_flag (value s j : Z) :
  value = 0 \/ value = 1 -> 0 <= s ->
  Z.testbit (Z.shiftl value s) j = (j =? s) && Z.odd value.
Proof.
  intros [-> | ->] Hs.
  - rewrite Z.shiftl_0_l, Z.bits_0, andb_false_r. reflexivity.
  - rewrite Z.shiftl_1_l, Z.pow2_bits_eqb, andb_true_r by lia.
    apply Z.eqb_sym.
Qed.

Lemma uint8_bit_index (i : Z) : uint8 (i mod 8) = i mod 8.
Proof.
  unfold uint8. apply Z.mod_small.
  pose proof (Z.mod_pos_bound i 8). lia.
Qed.

Lemma length_write_bit (b : buffer) (value i : Z) :
  length (write_bit b value i) = length b.
Proof.
  unfold write_bit, store. destruct (uint8 (i mod 8) =? 0);
    now rewrite ?length_insert.
Qed.

Lemma write_bit_other_byte (b : buffer) (value i : Z) (j : nat) :
  0 <= i -> Z.of_nat j <> i / 8 -> write_bit b value i !! j = b !! j.
Proof.
  intros Hi Hj. unfold write_bit, store.
  assert (0 <= i / 8) by (apply Z.div_pos; lia).
  assert (Z.to_nat (i / 8) <> j) by lia.
  destruct (uint8 (i mod 8) =? 0); now rewrite ?list_lookup_insert_ne.
Qed.

Lemma load_store_same (b : buffer) (i v : Z) :
  (Z.to_nat i < length b)%nat -> load (store b i v) i = uint8 v.
Proof.
  intros Hi. unfold load, store. now rewrite list_lookup_insert_eq.
Qed.

(** The effect of one round on every bit of the buffer. *)
Lemma bit_at_write_bit (b : buffer) (value i k : Z) :
  value = 0 \/ value = 1 ->
  0 <= i -> (Z.to_nat (i / 8) < length b)%nat -> 0 <= k ->
  bit_at (write_bit b value i) k
  = if k / 8 =? i / 8
    then (if i mod 8 =? 0 then false else bit_at b k)
         || ((k =? i) && Z.odd value)
    else bit_at b k.
Proof.
  intros Hv Hi Hin Hk.
  destruct (Z.eqb_spec (k / 8) (i / 8)) as [Hbyte | Hbyte].
  - unfold bit_at, write_bit. rewrite Hbyte, uint8_bit_index.
    pose proof (Z.mod_pos_bound i 8 ltac:(lia)) as Hi8.
    pose proof (Z.mod_pos_bound k 8 ltac:(lia)) as Hk8.
    assert (Hsame : (k mod 8 =? i mod 8) = (k =? i)).
    { destruct (Z.eqb_spec k i) as [-> | Hne]; [apply Z.eqb_refl |].
      apply Z.eqb_neq. intros Hmod. apply Hne.
      rewrite (Z.div_mod k 8), (Z.div_mod i 8) by lia. congruence. }
    destruct (Z.eqb_spec (i mod 8) 0) as [Hzero | Hnz].
    + rewrite !load_store_same by (unfold store; now rewrite ?length_insert).
      unfold uint8 at 1. rewrite Z.mod_pow2_bits_low by lia.
      rewrite Z.lor_spec, testbit_flag by lia.
      change (uint8 0) with 0. rewrite Z.bits_0, Hsame. reflexivity.
    + rewrite load_store_same by exact Hin.
      unfold uint8. rewrite Z.mod_pow2_bits_low by lia.
      rewrite Z.lor_spec, testbit_flag by lia. now rewrite Hsame.
  - unfold bit_at, load.
    rewrite (write_bit_other_byte b value i (Z.to_nat (k / 8))); [reflexivity | lia |].
    rewrite Z2Nat.id; [exact Hbyte | apply Z.div_pos; lia].
Qed.

(** One round of the loop, below the limit. *)
Lemma morse_encode_bit_loop_step
    (count : nat) (value i limit : Z) (e : enc_state) :
  i < limit ->
  morse_encode_bit_loop (S count) value i limit e
  = morse_encode_bit_loop count value (i + 1) limit
      {| buf := write_bit (buf e) value i; err := err e |}.
Proof.
  intros Hlt. cbn [morse_encode_bit_loop].
  destruct (Z.leb_spec limit i) as [Hge | _]; [lia |].
  unfold bind, write_bit, peek, poke, ret.
  destruct (uint8 (i mod 8) =? 0); reflexivity.
Qed.

Lemma holds_bits_write (b0 b : buffer) (bits : list bool) (value : Z) :
  value = 0 \/ value = 1 ->
  32 + Z.of_nat (length bits) < 8 * Z.of_nat (length b) ->
  holds_bits b0 b bits ->
  holds_bits b0 (write_bit b value (32 + Z.of_nat (length bits)))
             (bits ++ [Z.odd value]).
Proof.
  intros Hv Hroom (Hwritten & Hclear & Htail).
  set (i := 32 + Z.of_nat (length bits)) in *.
  assert (Hin : (Z.to_nat (i / 8) < length b)%nat)
    by (subst i; Z.div_mod_to_equations; lia).
  assert (Hi : 0 <= i) by (subst i; lia).
  unfold holds_bits. rewrite length_app. cbn [length].
  replace (32 + Z.of_nat (length bits + 1)) with (i + 1) by (subst i; lia).
  repeat split.
  - intros k v Hk.
    rewrite bit_at_write_bit by (assumption || lia).
    destruct (Nat.lt_ge_cases k (length bits)) as [Hold | Hnew].
    + rewrite lookup_app_l in Hk by exact Hold.
      specialize (Hwritten k v Hk).
      assert (Hki : 32 + Z.of_nat k < i) by (subst i; lia).
      destruct (Z.eqb_spec (32 + Z.of_nat k) i) as [Heq | _]; [lia |].
      rewrite andb_false_l, orb_false_r.
      destruct (Z.eqb_spec ((32 + Z.of_nat k) / 8) (i / 8)) as [Hbyte | _];
        [| exact Hwritten].
      destruct (Z.eqb_spec (i mod 8) 0) as [Hzero | _]; [| exact Hwritten].
      exfalso. Z.div_mod_to_equations. lia.
    + rewrite lookup_app_r in Hk by exact Hnew.
      destruct (k - length bits)%nat as [| d] eqn:Hd; [| destruct d; discriminate Hk].
      injection Hk as <-.
      replace (32 + Z.of_nat k) with i by (subst i; lia).
      rewrite !Z.eqb_refl, andb_true_l.
      destruct (Z.eqb_spec (i mod 8) 0) as [Hzero | Hnz]; [reflexivity |].
      rewrite Hclear; [reflexivity |]. Z.div_mod_to_equations. lia.
  - intros k Hk.
    rewrite bit_at_write_bit by (assumption || lia).
    destruct (Z.eqb_spec k i) as [Heq | _]; [lia |].
    rewrite andb_false_l, orb_false_r.
    destruct (Z.eqb_spec (k / 8) (i / 8)) as [Hbyte | Hbyte].
    + destruct (Z.eqb_spec (i mod 8) 0) as [Hzero | Hnz]; [reflexivity |].
      apply Hclear. Z.div_mod_to_equations. lia.
    + exfalso. Z.div_mod_to_equations. lia.
  - intros j Hj.
    rewrite write_bit_other_byte by (Z.div_mod_to_equations; lia).
    apply Htail. Z.div_mod_to_equations. lia.
Qed.

Lemma holds_bits_loop (count : nat) :
  forall (b0 : buffer) (bits : list bool) (value i limit : Z) (e : enc_state),
    value = 0 \/ value = 1 ->
    i = 32 + Z.of_nat (length bits) ->
    i + Z.of_nat count <= limit -> limit <= 8 * Z.of_nat (length (buf e)) ->
    holds_bits b0 (buf e) bits ->
    holds_bits b0 (buf (snd (morse_encode_bit_loop count value i limit e)))
               (bits ++ replicate count (Z.odd value)).
Proof.
  induction count as [| count IH];
    intros b0 bits value i limit e Hv Hi Hfit Hroom Hbits.
  - simpl. rewrite app_nil_r. exact Hbits.
  - rewrite morse_encode_bit_loop_step by lia.
    cbn [replicate]. rewrite (cons_middle _ bits), app_assoc.
    apply IH; cbn [buf]; rewrite ?length_write_bit, ?length_app; try lia.
    + cbn [length]. lia.
    + subst i. apply holds_bits_write; [exact Hv | lia | exact Hbits].
Qed.

Lemma holds_bits_encode_bit
    (b0 : buffer) (bits : list bool) (value n index limit : Z)
    (e e' : enc_state) (r : bool * Z) :
  value = 0 \/ value = 1 -> 0 <= n ->
  index = 32 + Z.of_nat (length bits) ->
  index + n <= limit -> limit < 2 ^ 32 ->
  limit <= 8 * Z.of_nat (length (buf e)) ->
  holds_bits b0 (buf e) bits ->
  morse_encode_bit value n index limit e = (r, e') ->
  holds_bits b0 (buf e') (bits ++ replicate (Z.to_nat n) (Z.odd value)).
Proof.
  intros Hv Hn Hi Hfit Hlim Hroom Hbits Hrun.
  unfold morse_encode_bit, uint32 in Hrun.
  rewrite Z.mod_small in Hrun by lia.
  replace (index + n - index) with n in Hrun by lia.
  pose proof (holds_bits_loop (Z.to_nat n) b0 bits value index limit e
                Hv Hi ltac:(lia) Hroom Hbits) as H.
  unfold bind in Hrun.
  destruct (morse_encode_bit_loop (Z.to_nat n) value index limit e)
    as [ok e1].
  destruct ok; injection Hrun as _ <-; exact H.
Qed.

Lemma length_symbol_bits (element : ascii) :
  Z.of_nat (length (symbol_bits element)) = symbol_cost element.
Proof. unfold symbol_bits, symbol_cost. now destruct (Ascii.eqb element dot). Qed.

Lemma length_series_bits (series : string) :
  Z.of_nat (length (series_bits series)) = series_cost series.
Proof.
  induction series as [| element rest IH]; [reflexivity |].
  cbn [series_bits series_cost]. rewrite length_app, Nat2Z.inj_add, IH.
  now rewrite length_symbol_bits.
Qed.

Lemma length_char_bits (ch : ascii) :
  Z.of_nat (length (char_bits ch)) = char_cost ch.
Proof.
  unfold char_bits, char_cost.
  destruct (Ascii.eqb (toupper ch) space); [reflexivity |].
  rewrite length_app, Nat2Z.inj_add, length_series_bits. reflexivity.
Qed.

Lemma length_text_bits (s : string) :
  Z.of_nat (length (text_bits s)) = text_cost s.
Proof.
  induction s as [| ch s IH]; [reflexivity |].
  cbn [text_bits text_cost].
  now rewrite length_app, Nat2Z.inj_add, IH, length_char_bits.
Qed.

Lemma enc_ok_room (e e' : enc_state) (limit : Z) :
  enc_ok e e' -> limit <= 8 * Z.of_nat (length (buf e)) ->
  limit <= 8 * Z.of_nat (length (buf e')).
Proof. intros (L & _) H. now rewrite L. Qed.

Lemma holds_bits_series (series : string) :
  forall (b0 : buffer) (bits : list bool) (i limit : Z)
         (e e' : enc_state) (r : bool * Z),
    i = 32 + Z.of_nat (length bits) ->
    i + series_cost series <= limit -> limit < 2 ^ 32 ->
    limit <= 8 * Z.of_nat (length (buf e)) ->
    holds_bits b0 (buf e) bits ->
    morse_encode_series series i limit e = (r, e') ->
    holds_bits b0 (buf e') (bits ++ series_bits series).
Proof.
  induction series as [| element rest IH];
    intros b0 bits i limit e e' r Hi Hfit Hlim Hroom Hbits Hrun.
  - injection Hrun as _ <-. simpl. now rewrite app_nil_r.
  - cbn [morse_encode_series series_cost series_bits] in *.
    pose proof (series_cost_nonneg rest) as Hrest.
    unfold symbol_cost, symbol_bits in *.
    destruct (morse_encode_bit_ok 0 1 i limit e) as (e1 & Hgap & Hok1);
      [destruct (Ascii.eqb element dot); lia .. |].
    assert (Hbits1 : holds_bits b0 (buf e1) (bits ++ [false])).
    { apply (holds_bits_encode_bit b0 bits 0 1 i limit e e1 (true, i + 1));
        auto; try lia. destruct (Ascii.eqb element dot); lia. }
    pose proof (enc_ok_room _ _ _ Hok1 Hroom) as Hroom1.
    assert (Hi1 : i + 1 = 32 + Z.of_nat (length (bits ++ [false])))
      by (rewrite length_app; cbn [length]; lia).
    unfold bind at 1 in Hrun. rewrite Hgap in Hrun. cbn [fst snd negb] in Hrun.
    destruct (Ascii.eqb element dot).
    + destruct (morse_encode_bit_ok 1 1 (i + 1) limit e1) as (e2 & Hsym & Hok2);
        [lia .. |].
      assert (Hbits2 : holds_bits b0 (buf e2) ((bits ++ [false]) ++ [true])).
      { apply (holds_bits_encode_bit b0 (bits ++ [false]) 1 1 (i + 1) limit
                 e1 e2 (true, i + 1 + 1)); auto; lia. }
      unfold bind at 1 in Hrun. rewrite Hsym in Hrun.
      cbn [fst snd negb] in Hrun.
      replace (bits ++ (false :: [true]) ++ series_bits rest)
        with (((bits ++ [false]) ++ [true]) ++ series_bits rest)
        by (now rewrite <- !app_assoc).
      apply (IH b0 _ (i + 1 + 1) limit e2 e' r); try assumption; try lia.
      * rewrite !length_app. cbn [length]. lia.
      * exact (enc_ok_room _ _ _ Hok2 Hroom1).
    + destruct (morse_encode_bit_ok 1 3 (i + 1) limit e1) as (e2 & Hsym & Hok2);
        [lia .. |].
      assert (Hbits2 : holds_bits b0 (buf e2)
                         ((bits ++ [false]) ++ [true; true; true])).
      { apply (holds_bits_encode_bit b0 (bits ++ [false]) 1 3 (i + 1) limit
                 e1 e2 (true, i + 1 + 3)); auto; lia. }
      unfold bind at 1 in Hrun. rewrite Hsym in Hrun.
      cbn [fst snd negb] in Hrun.
      replace (bits ++ (false :: [true; true; true]) ++ series_bits rest)
        with (((bits ++ [false]) ++ [true; true; true]) ++ series_bits rest)
        by (now rewrite <- !app_assoc).
      apply (IH b0 _ (i + 1 + 3) limit e2 e' r); try assumption; try lia.
      * rewrite !length_app. cbn [length]. lia.
      * exact (enc_ok_room _ _ _ Hok2 Hroom1).
Qed.

Lemma holds_bits_char
    (b0 : buffer) (bits : list bool) (ch : ascii) (index limit : Z)
    (e e' : enc_state) (char_len : Z) :
  accepted ch = true ->
  index = 32 + Z.of_nat (length bits) ->
  index + char_cost ch <= limit -> limit < 2 ^ 32 ->
  limit <= 8 * Z.of_nat (length (buf e)) ->
  holds_bits b0 (buf e) bits ->
  morse_encode_char ch index limit e = (char_len, e') ->
  holds_bits b0 (buf e') (bits ++ char_bits ch).
Proof.
  intros Hacc Hi Hfit Hlim Hroom Hbits Hrun.
  unfold morse_encode_char, char_cost, char_bits, accepted in *.
  destruct (Ascii.eqb (toupper ch) space).
  - destruct (morse_encode_bit_ok 0 4 index limit e) as (e1 & Hgap & Hok);
      [lia .. |].
    unfold bind at 1 in Hrun. rewrite Hgap in Hrun. cbn [fst snd negb] in Hrun.
    injection Hrun as _ <-.
    apply (holds_bits_encode_bit b0 bits 0 4 index limit e e1 (true, index + 4));
      auto; lia.
  - simpl in Hacc. rewrite Hacc in Hrun. cbn [negb] in Hrun.
    set (series := letters_at (char_code (toupper ch) - OFFSET)) in *.
    pose proof (series_cost_nonneg series) as Hseries.
    destruct (morse_encode_bit_ok 0 2 index limit e) as (e1 & Hgap & Hok1);
      [lia .. |].
    assert (Hbits1 : holds_bits b0 (buf e1) (bits ++ [false; false])).
    { apply (holds_bits_encode_bit b0 bits 0 2 index limit e e1
               (true, index + 2)); auto; lia. }
    unfold bind at 1 in Hrun. rewrite Hgap in Hrun. cbn [fst snd negb] in Hrun.
    destruct (morse_encode_series_ok series (index + 2) limit e1)
      as (e2 & Hser & Hok2); [lia .. |].
    unfold bind at 1 in Hrun. rewrite Hser in Hrun. cbn [fst snd negb] in Hrun.
    injection Hrun as _ <-.
    rewrite app_assoc.
    apply (holds_bits_series series b0 _ (index + 2) limit e1 e2
             (true, index + 2 + series_cost series));
      try assumption; try lia.
    + rewrite length_app. cbn [length]. lia.
    + exact (enc_ok_room _ _ _ Hok1 Hroom).
Qed.

Lemma holds_bits_text (s : string) :
  forall (b0 : buffer) (bits : list bool) (i limit : Z)
         (e e' : enc_state) (r : bool * Z),
    all_chars accepted s = true ->
    i = 32 + Z.of_nat (length bits) ->
    i + text_cost s <= limit -> limit < 2 ^ 32 ->
    limit <= 8 * Z.of_nat (length (buf e)) ->
    holds_bits b0 (buf e) bits ->
    morse_encode_text s i limit e = (r, e') ->
    holds_bits b0 (buf e') (bits ++ text_bits s).
Proof.
  induction s as [| ch s IH];
    intros b0 bits i limit e e' r Hacc Hi Hfit Hlim Hroom Hbits Hrun.
  - injection Hrun as _ <-. simpl. now rewrite app_nil_r.
  - cbn [all_chars text_cost text_bits morse_encode_text] in *.
    apply andb_true_iff in Hacc as [Hch Hs].
    pose proof (accepted_cost ch Hch) as Hcost.
    pose proof (text_cost_nonneg s Hs) as Hnonneg.
    rewrite (accepted_not_nul ch Hch) in Hrun.
    destruct (morse_encode_char_ok ch i limit e) as (e1 & Hchar & Hok1);
      [assumption || lia .. |].
    pose proof (holds_bits_char b0 bits ch i limit e e1 _ Hch Hi
                  ltac:(lia) Hlim Hroom Hbits Hchar) as Hbits1.
    unfold bind at 1 in Hrun. rewrite Hchar in Hrun.
    destruct (Z.eqb_spec (char_cost ch) 0) as [Hz | _]; [lia |].
    unfold uint32 in Hrun. rewrite Z.mod_small in Hrun by lia.
    rewrite app_assoc.
    apply (IH b0 _ (i + char_cost ch) limit e1 e' r); try assumption; try lia.
    + rewrite length_app, Nat2Z.inj_add, length_char_bits. lia.
    + exact (enc_ok_room _ _ _ Hok1 Hroom).
Qed.

Lemma holds_bits_empty (b : buffer) : holds_bits b b [].
Proof.
  repeat split.
  - intros k v Hk. discriminate Hk.
  - intros k Hk. cbn [length] in Hk. Z.div_mod_to_equations. lia.
Qed.

Lemma bit_at_morse_encode_len (b : buffer) (n k : Z) :
  32 <= k -> bit_at (morse_encode_len b n) k = bit_at b k.
Proof.
  intros Hk. unfold bit_at, load.
  rewrite morse_encode_len_tail; [reflexivity |].
  Z.div_mod_to_equations. lia.
Qed.

(** The buffer after an encoding that fits. *)
Lemma morse_encode_holds_bits (s : string) (size : Z) (e : enc_state) :
  all_chars accepted s = true ->
  4 <= size < 2 ^ 29 -> Z.of_nat (length (buf e)) = size ->
  32 + (text_cost s + 12) <= 8 * size ->
  holds_bits (buf e) (buf (snd (morse_encode s size e))) (message_bits s).
Proof.
  intros Hacc Hsize Hlen Hfit.
  destruct (bit_size_small size Hsize) as [Hbits Hlim].
  pose proof (text_cost_nonneg s Hacc) as Hnonneg.
  unfold morse_encode.
  destruct (Z.ltb_spec size 4) as [Hlt | _]; [lia |].
  rewrite Hbits.
  destruct (morse_encode_text_ok s 32 (8 * size) e) as (e1 & Htext & Hok1);
    [assumption || lia .. |].
  assert (Hroom : 8 * size <= 8 * Z.of_nat (length (buf e))) by lia.
  pose proof (enc_ok_room _ _ _ Hok1 Hroom) as Hroom1.
  pose proof (holds_bits_text s (buf e) [] 32 (8 * size) e e1 _ Hacc
                eq_refl ltac:(lia) ltac:(lia) Hroom
                (holds_bits_empty (buf e)) Htext) as Hbits1.
  cbn [app] in Hbits1.
  run_call Htext.
  destruct (morse_encode_text_ok (spaces 3) (32 + text_cost s) (8 * size) e1)
    as (e2 & Hpad & Hok2);
    [reflexivity | lia | change (text_cost (spaces 3)) with 12; lia | lia |].
  pose proof (holds_bits_text (spaces 3) (buf e) (text_bits s)
                (32 + text_cost s) (8 * size) e1 e2 _ eq_refl
                ltac:(now rewrite length_text_bits)
                ltac:(change (text_cost (spaces 3)) with 12; lia)
                ltac:(lia) Hroom1 Hbits1 Hpad)
    as Hbits2.
  change (text_bits (spaces 3)) with (replicate 12 false) in Hbits2.
  fold (message_bits s) in Hbits2.
  unfold bind at 1. rewrite morse_encode_padding_text, Hpad.
  cbn [fst snd negb buf on_buf bind ret].
  destruct Hbits2 as (Hwritten & Hclear & Htail).
  repeat split.
  - intros k v Hk. rewrite bit_at_morse_encode_len by lia.
    exact (Hwritten k v Hk).
  - intros k Hk. rewrite bit_at_morse_encode_len by lia. exact (Hclear k Hk).
  - intros j Hj. rewrite morse_encode_len_tail; [exact (Htail j Hj) |].
    Z.div_mod_to_equations. lia.
Qed.

Lemma length_message_bits (s : string) :
  Z.of_nat (length (message_bits s)) = text_cost s + 12.
Proof.
  unfold message_bits.
  rewrite length_app, Nat2Z.inj_add, length_text_bits, length_replicate.
  reflexivity.
Qed.

(** ** Every way a call of the encoder can end *)

Lemma split_accepted (s : string) :
  exists pre rest,
    s = (pre ++ rest)%string
    /\ all_chars accepted pre = true
    /\ (rest = EmptyString
        \/ exists c r, rest = String c r /\ accepted c = false).
Proof.
  induction s as [| ch s (pre & rest & Hs & Hpre & Hrest)].
  - exists EmptyString, EmptyString. auto.
  - destruct (accepted ch) eqn:Hch.
    + exists (String ch pre), rest. cbn [append all_chars].
      rewrite Hch, Hpre, <- Hs. auto.
    + exists EmptyString, (String ch s). cbn [append all_chars].
      split; [reflexivity |]. split; [reflexivity |]. right. eauto.
Qed.

(** The text ends at a NUL. *)
Lemma morse_encode_text_nul (pre : string) :
  forall (c : ascii) (rest : string) (i limit : Z) (e : enc_state),
    char_code c = 0 ->
    morse_encode_text (pre ++ String c rest) i limit e
    = morse_encode_text pre i limit e.
Proof.
  induction pre as [| ch pre IH]; intros c rest i limit e Hc.
  - cbn [append morse_encode_text]. now rewrite Hc.
  - cbn [append morse_encode_text].
    destruct (char_code ch =? 0); [reflexivity |].
    unfold bind. destruct (morse_encode_char ch i limit e) as [char_len e1].
    destruct (char_len =? 0); [reflexivity | now apply IH].
Qed.

Lemma morse_encode_nul
    (pre : string) (c : ascii) (rest : string) (size : Z) (e : enc_state) :
  char_code c = 0 ->
  morse_encode (pre ++ String c rest) size e = morse_encode pre size e.
Proof.
  intros Hc. unfold morse_encode. destruct (size <? 4); [reflexivity |].
  unfold bind at 1 3. now rewrite morse_encode_text_nul.
Qed.

Lemma morse_encode_outcome_accepted (s : string) (size : Z) (e : enc_state) :
  all_chars accepted s = true ->
  4 <= size < 2 ^ 29 -> Z.of_nat (length (buf e)) = size ->
  encode_outcome size e (morse_encode s size e).
Proof.
  intros Hacc Hsize Hlen.
  pose proof (text_cost_nonneg s Hacc) as Hnonneg.
  destruct (Z.le_gt_cases (32 + (text_cost s + 12)) (8 * size)) as [Hfit | Hover].
  - destruct (morse_encode_accepted s size e Hacc Hsize Hlen Hfit)
      as (e' & -> & Hhead & Herr).
    left. cbn [fst snd]. rewrite Hhead. repeat split; [exact Herr | lia | lia].
  - destruct (morse_encode_overflow s "" size e Hacc Hsize Hlen)
      as (e' & Hrun & _ & Hhead & Herr); [right; split; [reflexivity | lia] |].
    rewrite append_empty_r in Hrun. rewrite Hrun.
    right. left. cbn [fst snd]. auto.
Qed.

Lemma morse_encode_outcome (s : string) (size : Z) (e : enc_state) :
  4 <= size < 2 ^ 29 -> Z.of_nat (length (buf e)) = size ->
  encode_outcome size e (morse_encode s size e).
Proof.
  intros Hsize Hlen.
  destruct (split_accepted s) as (pre & rest & -> & Hpre & Hrest).
  destruct Hrest as [-> | (c & r & -> & Hc)].
  - rewrite append_empty_r. now apply morse_encode_outcome_accepted.
  - destruct (Z.eq_dec (char_code c) 0) as [Hnul | Hnul].
    + rewrite morse_encode_nul by exact Hnul.
      now apply morse_encode_outcome_accepted.
    + destruct (Z.le_gt_cases (32 + text_cost pre) (8 * size)) as [Hfit | Hover].
      * destruct (morse_encode_rejected pre c r size e Hpre Hc Hnul Hsize
                    Hlen Hfit) as (e' & Hrun & Hurun).
        right. right. rewrite Hrun. cbn [fst snd].
        destruct Hurun as [_ Herr].
        split; [reflexivity |]. split; [eauto |].
        (* the header bytes: the prefix wrote past them only *)
        destruct (bit_size_small size Hsize) as [Hbits Hlim].
        unfold morse_encode in Hrun.
        destruct (Z.ltb_spec size 4) as [Hlt | _]; [lia |].
        rewrite Hbits in Hrun.
        destruct (morse_encode_text_prefix pre (String c r) 32 (8 * size) e)
          as (e1 & Htext & (_ & T1 & _)); [assumption || lia .. |].
        unfold bind at 1 in Hrun. rewrite Htext in Hrun.
        cbn [morse_encode_text] in Hrun.
        destruct (Z.eqb_spec (char_code c) 0) as [Hz | _]; [contradiction |].
        unfold bind at 1 in Hrun.
        rewrite (morse_encode_char_rejected c _ _ e1 Hc) in Hrun.
        cbn in Hrun. injection Hrun as <-. exact T1.
      * destruct (morse_encode_overflow pre (String c r) size e Hpre Hsize Hlen)
          as (e' & Hrun & _ & Hhead & Herr); [left; lia |].
        rewrite Hrun. right. left. cbn [fst snd]. auto.
Qed.

(** ** What every reachable state satisfies *)

Lemma morse_len_replicate_0 (n : nat) : morse_len (replicate n 0) = 0.
Proof.
  unfold morse_len, load.
  assert (H : forall k : nat, default 0 (replicate n 0 !! k) = 0).
  { intros k. destruct (replicate n 0 !! k) as [x |] eqn:Hk; [| reflexivity].
    apply lookup_replicate in Hk as [-> _]. reflexivity. }
  now rewrite !H.
Qed.

Lemma headers_bounded_init : headers_bounded init.
Proof.
  unfold headers_bounded, init. cbn [morse_buf1 morse_buf2].
  rewrite morse_len_replicate_0. vm_compute. split; discriminate.
Qed.

Lemma morse_len_encode_len_0 (b : buffer) :
  (4 <= length b)%nat -> morse_len (morse_encode_len b 0) = 0.
Proof. intros H. apply morse_len_encode_len; [exact H | lia]. Qed.

Lemma headers_bounded_deref (st : state) :
  headers_bounded st <-> forall p, morse_len (deref st p) <= MAX_BITS.
Proof.
  split.
  - intros [H1 H2] []; assumption.
  - intros H. split; [apply (H Buf1) | apply (H Buf2)].
Qed.

Lemma headers_bounded_morse (st : state) (s : string) (repeat : bool) :
  wf st -> headers_bounded st -> headers_bounded (morse st s repeat).
Proof.
  intros Hwf Hb. rewrite headers_bounded_deref in Hb.
  pose proof (wf_length st (morse_next_buf st) Hwf) as Hlen.
  pose proof (morse_encode_outcome s MORSE_MAX_LEN
                {| buf := deref st (morse_next_buf st); err := stderr st |}
                ltac:(vm_compute; split; [discriminate | reflexivity]) Hlen)
    as Hout.
  assert (Hnew : morse_len
                   (buf (snd (morse_encode s MORSE_MAX_LEN
                                {| buf := deref st (morse_next_buf st);
                                   err := stderr st |}))) <= MAX_BITS).
  { destruct Hout as [(_ & _ & H) | [(_ & _ & H) | (_ & _ & H)]].
    - unfold MAX_BITS. lia.
    - rewrite (morse_len_zero_header _ H). vm_compute. discriminate.
    - rewrite (morse_len_take _ _ H). apply Hb. }
  pose proof (Hb Buf1) as H1. pose proof (Hb Buf2) as H2.
  unfold morse, headers_bounded.
  destruct (morse_next_buf st); cbn in *; auto.
Qed.

Lemma headers_bounded_assign_0 (st : state) (p : bufptr) :
  wf st -> headers_bounded st ->
  headers_bounded (assign st p (morse_encode_len (deref st p) 0)).
Proof.
  intros Hwf [H1 H2].
  pose proof (wf_length st p Hwf) as Hlen. unfold MORSE_MAX_LEN in Hlen.
  assert (Hz : morse_len (morse_encode_len (deref st p) 0) <= MAX_BITS).
  { rewrite morse_len_encode_len_0 by lia. vm_compute. discriminate. }
  unfold headers_bounded. destruct p; cbn in *; auto.
Qed.

Lemma headers_bounded_switch (st : state) :
  wf st -> headers_bounded st -> headers_bounded (morse_switch_buf st).
Proof.
  intros Hwf Hb. unfold morse_switch_buf.
  destruct (bufptr_eqb (morse_live_buf st) Buf1).
  - apply (headers_bounded_assign_0
             (set_repeat_next false
                (set_repeat (morse_repeat_next st) (set_bufs Buf2 Buf1 st)))
             Buf1); [| exact Hb].
    destruct Hwf as (_ & L1 & L2 & Ht1 & Ht2).
    repeat split; auto; discriminate.
  - apply (headers_bounded_assign_0
             (set_repeat_next false
                (set_repeat (morse_repeat_next st) (set_bufs Buf1 Buf2 st)))
             Buf2); [| exact Hb].
    destruct Hwf as (_ & L1 & L2 & Ht1 & Ht2).
    repeat split; auto; discriminate.
Qed.

Lemma headers_bounded_morse_update (st : state) (elapsed_ms : Z) :
  wf st -> headers_bounded st ->
  headers_bounded (fst (morse_update st elapsed_ms)).
Proof.
  intros Hwf Hb. unfold morse_update.
  destruct (_ && _); [exact Hb |]. cbn [fst].
  destruct (_ <=? _); [| exact Hb].
  destruct (negb _); [| exact Hb].
  apply (headers_bounded_switch
           (set_elapsed_time (uint32 (morse_elapsed_time st + elapsed_ms)) st)).
  - apply wf_set_elapsed_time; [exact Hwf | apply uint32_range].
  - exact Hb.
Qed.

Lemma reachable_headers_bounded (st : state) :
  reachable st -> headers_bounded st.
Proof.
  induction 1 as [| st s repeat Hreach IH | st ms Hreach IH Hms
                  | st Hreach IH | st Hreach IH].
  - apply headers_bounded_init.
  - apply headers_bounded_morse; [apply reachable_wf, Hreach | exact IH].
  - apply headers_bounded_morse_update; [apply reachable_wf, Hreach | exact IH].
  - exact IH.
  - apply (headers_bounded_assign_0 st (morse_live_buf st));
      [apply reachable_wf, Hreach | exact IH].
Qed.

(** ** Runs of ticks *)

Lemma set_elapsed_time_id (st : state) :
  set_elapsed_time (morse_elapsed_time st) st = st.
Proof. now destruct st. Qed.

Lemma set_elapsed_time_twice (st : state) (t1 t2 : Z) :
  set_elapsed_time t2 (set_elapsed_time t1 st) = set_elapsed_time t2 st.
Proof. reflexivity. Qed.


(** Ticks that meet no boundary change the elapsed time only, and the sink
    is given the bit of the live message under each instant. *)
Lemma run_ticks_playing (ticks : list Z) :
  forall st : state,
    before_boundary st ticks = true ->
    run_ticks st ticks
    = (set_elapsed_time
         (default (morse_elapsed_time st)
                  (last (sample_times (morse_elapsed_time st) ticks))) st,
       (fun t => morse_bit (deref st (morse_live_buf st))
                           (t / morse_dot_duration))
         <$> sample_times (morse_elapsed_time st) ticks).
Proof.
  induction ticks as [| ms ticks IH]; intros st Hbefore.
  - cbn. now rewrite set_elapsed_time_id.
  - cbn [before_boundary] in Hbefore.
    apply andb_true_iff in Hbefore as [Hlt%Z.ltb_lt Hrest].
    cbn [run_ticks sample_times].
    rewrite (morse_update_playing st ms Hlt) in Hrest |- *.
    cbn [fst] in Hrest. rewrite (IH _ Hrest).
    cbn [morse_elapsed_time morse_live_buf set_elapsed_time].
    rewrite deref_set_elapsed_time, set_elapsed_time_twice, last_cons.
    cbn [fmap list_fmap app]. unfold tick_index. f_equal.
    destruct (last _); reflexivity.
Qed.

Lemma before_boundary_samples (ticks : list Z) :
  forall st : state,
    Forall (fun t => t / morse_dot_duration
                     < morse_len (deref st (morse_live_buf st)))
           (sample_times (morse_elapsed_time st) ticks) ->
    before_boundary st ticks = true.
Proof.
  induction ticks as [| ms ticks IH]; intros st Hall; [reflexivity |].
  cbn [sample_times] in Hall. apply Forall_cons in Hall as [Hlt Hrest].
  cbn [before_boundary]. apply andb_true_iff.
  split; [apply Z.ltb_lt, Hlt |].
  rewrite (morse_update_playing st ms Hlt). cbn [fst]. apply IH.
  cbn [morse_elapsed_time morse_live_buf set_elapsed_time].
  now rewrite deref_set_elapsed_time.
Qed.

(** Ticks of one dot duration each, from the start of unit [j]. *)
Lemma sample_times_units (m : nat) :
  forall j : nat,
    morse_dot_duration * Z.of_nat (j + m) < 2 ^ 32 ->
    sample_times (morse_dot_duration * Z.of_nat j)
                 (replicate m morse_dot_duration)
    = (fun i : nat => morse_dot_duration * Z.of_nat i) <$> seq (S j) m.
Proof.
  unfold morse_dot_duration.
  induction m as [| m IH]; intros j Hlim; [reflexivity |].
  cbn [replicate sample_times seq fmap list_fmap].
  replace (uint32 (60 * Z.of_nat j + 60)) with (60 * Z.of_nat (S j))
    by (unfold uint32; rewrite Z.mod_small; lia).
  f_equal. apply IH. lia.
Qed.

Lemma play_units (st : state) (m : nat) :
  morse_elapsed_time st = 0 ->
  Z.of_nat m < morse_len (deref st (morse_live_buf st)) ->
  morse_len (deref st (morse_live_buf st)) <= MAX_BITS ->
  snd (run_ticks st (replicate m morse_dot_duration))
  = (fun i : nat => morse_bit (deref st (morse_live_buf st)) (Z.of_nat i))
      <$> seq 1 m.
Proof.
  intros Ht Hm Hmax.
  assert (Hlim : morse_dot_duration * Z.of_nat (0 + m) < 2 ^ 32)
    by (unfold MAX_BITS, MORSE_MAX_LEN, morse_dot_duration in *; lia).
  pose proof (sample_times_units m 0 Hlim) as Htimes.
  rewrite Z.mul_0_r, <- Ht in Htimes.
  rewrite run_ticks_playing.
  - cbn [snd]. rewrite Htimes, <- list_fmap_compose.
    apply list_fmap_ext. intros _ i _. cbn. f_equal.
    unfold morse_dot_duration. now rewrite Z.mul_comm, Z.div_mul.
  - apply before_boundary_samples. rewrite Htimes.
    apply Forall_fmap, Forall_forall. intros i Hi%elem_of_seq. cbn.
    unfold morse_dot_duration. rewrite Z.mul_comm, Z.div_mul by lia. lia.
Qed.

Lemma bits_as_samples_from (b : buffer) (bits : list bool) (j : nat) :
  (forall (k : nat) (v : bool),
      bits !! k = Some v -> morse_bit b (Z.of_nat k) = Some v) ->
  (fun i : nat => morse_bit b (Z.of_nat i)) <$> seq j (length bits - j)
  = Some <$> drop j bits.
Proof.
  intros Hbits. apply list_eq. intros k.
  rewrite !list_lookup_fmap, lookup_drop.
  destruct (bits !! (j + k)%nat) as [v |] eqn:Hk.
  - rewrite lookup_seq_lt by (apply lookup_lt_Some in Hk; lia).
    cbn. f_equal. now apply Hbits.
  - rewrite lookup_seq_ge by (apply lookup_ge_None in Hk; lia).
    reflexivity.
Qed.

(** ** The idle engine *)

Lemma morse_update_idle (st : state) (elapsed_ms : Z) :
  morse_len (deref st (morse_live_buf st)) = 0 ->
  morse_len (deref st (morse_next_buf st)) = 0 ->
  morse_update st elapsed_ms = (st, []).
Proof. intros Hl Hn. unfold morse_update. now rewrite Hl, Hn. Qed.

Lemma run_ticks_idle (st : state) (ticks : list Z) :
  morse_len (deref st (morse_live_buf st)) = 0 ->
  morse_len (deref st (morse_next_buf st)) = 0 ->
  run_ticks st ticks = (st, []).
Proof.
  intros Hl Hn. induction ticks as [| ms ticks IH]; [reflexivity |].
  cbn [run_ticks]. now rewrite (morse_update_idle st ms Hl Hn), IH.
Qed.

(** ** The end of a pass *)


Lemma morse_next_content (st : state) (s : string) (repeat : bool) :
  deref (morse st s repeat) (morse_next_buf st)
  = buf (snd (morse_encode s MORSE_MAX_LEN
                {| buf := deref st (morse_next_buf st); err := stderr st |})).
Proof. unfold morse. now destruct (morse_next_buf st). Qed.

(** The bits and the header after an encoding that fits. *)
Lemma encoded_bits_ok (s : string) (e : enc_state) :
  all_chars accepted s = true ->
  4 <= MORSE_MAX_LEN < 2 ^ 29 ->
  Z.of_nat (length (buf e)) = MORSE_MAX_LEN ->
  32 + (text_cost s + 12) <= 8 * MORSE_MAX_LEN ->
  let b' := buf (snd (morse_encode s MORSE_MAX_LEN e)) in
  (forall (k : nat) (v : bool),
      message_bits s !! k = Some v -> morse_bit b' (Z.of_nat k) = Some v)
  /\ morse_len b' = Z.of_nat (length (message_bits s)).
Proof.
  intros Hacc Hsize Hlen Hfit b'.
  pose proof (morse_encode_holds_bits s MORSE_MAX_LEN e Hacc Hsize Hlen Hfit)
    as (Hwritten & _).
  fold b' in Hwritten.
  destruct (morse_encode_accepted s MORSE_MAX_LEN e Hacc Hsize Hlen Hfit)
    as (e' & Hrun & Hhead & _).
  assert (Hb' : b' = buf e') by (subst b'; now rewrite Hrun).
  assert (Hsame : length b' = length (buf e))
    by (subst b'; apply (keeps_morse_encode s MORSE_MAX_LEN)).
  pose proof (length_message_bits s) as Hbits.
  split.
  - intros k v Hk. pose proof (lookup_lt_Some _ _ _ Hk) as Hlt.
    unfold MORSE_MAX_LEN in *.
    rewrite morse_bit_bit_at by lia. f_equal. now apply Hwritten.
  - rewrite Hb', Hhead. lia.
Qed.

(** A text that fits is submitted and the next tick is at or past the end
    of what is live: the text becomes live on that tick, which passes the
    bit under the index it reached, and a tick of one dot duration per
    further unit passes the units from the second on. *)
Lemma run_after_submit
    (st : state) (s : string) (repeat : bool) (first_ms : Z) :
  reachable st ->
  all_chars accepted s = true ->
  32 + (text_cost s + 12) <= 8 * MORSE_MAX_LEN ->
  morse_len (deref st (morse_live_buf st)) <= tick_index st first_ms ->
  let b := deref (morse st s repeat) (morse_next_buf st) in
  (forall (k : nat) (v : bool),
      message_bits s !! k = Some v -> morse_bit b (Z.of_nat k) = Some v)
  /\ snd (run_ticks (morse st s repeat)
                    (first_ms :: replicate (length (message_bits s) - 1)
                                           morse_dot_duration))
     = morse_bit b (tick_index st first_ms)
       :: (Some <$> drop 1 (message_bits s)).
Proof.
  intros Hreach Hacc Hfit Hend b.
  pose proof (reachable_wf st Hreach) as Hwf.
  destruct Hwf as (Hne & _).
  pose proof (wf_length st (morse_next_buf st) (reachable_wf st Hreach)) as Hlen.
  destruct (morse_frame st s repeat Hne) as (Hlp & Hnp & Hlb & Ht).
  set (e := {| buf := deref st (morse_next_buf st); err := stderr st |}).
  assert (Hsize : 4 <= MORSE_MAX_LEN < 2 ^ 29)
    by (vm_compute; split; [discriminate | reflexivity]).
  destruct (encoded_bits_ok s e Hacc Hsize Hlen Hfit) as (Hbits & Hhead).
  pose proof (morse_next_content st s repeat) as Hcontent.
  fold e in Hcontent. fold b in Hcontent. rewrite <- Hcontent in Hbits, Hhead.
  split; [exact Hbits |].
  set (st1 := morse st s repeat) in *.
  pose proof (length_message_bits s) as Hn.
  pose proof (text_cost_nonneg s Hacc) as Hnonneg.
  assert (Hidx : tick_index st1 first_ms = tick_index st first_ms)
    by (unfold tick_index; now rewrite Ht).
  assert (Hne1 : morse_live_buf st1 <> morse_next_buf st1)
    by (rewrite Hlp, Hnp; exact Hne).
  cbn [run_ticks].
  rewrite (morse_update_swap st1 first_ms).
  - set (st2 := set_elapsed_time 0 (morse_switch_buf _)).
    destruct (morse_switch_buf_spec
                (set_elapsed_time
                   (uint32 (morse_elapsed_time st1 + first_ms)) st1))
      as (Hl2 & _ & Hb2 & _); [exact Hne1 |].
    assert (Hlive2 : deref st2 (morse_live_buf st2) = b).
    { subst st2.
      change (morse_live_buf (set_elapsed_time 0 ?x)) with (morse_live_buf x).
      rewrite deref_set_elapsed_time, Hb2.
      cbn [morse_next_buf set_elapsed_time].
      now rewrite deref_set_elapsed_time, Hnp. }
    pose proof (play_units st2 (length (message_bits s) - 1)) as Hplay.
    rewrite Hlive2, Hhead in Hplay.
    destruct (run_ticks st2 _) as [st3 out]. cbn [snd] in Hplay |- *.
    rewrite Hplay; [| reflexivity | lia | unfold MAX_BITS; lia].
    rewrite Hidx, Hnp. cbn [app]. f_equal.
    now apply bits_as_samples_from.
  - exact Hne1.
  - right. rewrite Hnp. fold b. rewrite Hhead. lia.
  - now rewrite Hlp, Hlb, Hidx.
  - reflexivity.
Qed.

(** * Further results *)

(** X1: on a buffer of at least 4 bytes, the length written by
    [morse_encode_len] is the one [morse_len] reads, for every 32-bit
    length; the bytes after the header and the size of the buffer are left
    as they are. *)
Theorem header_round_trip (b : buffer) (n : Z) :
  (4 <= length b)%nat -> 0 <= n < 2 ^ 32 ->
  morse_len (morse_encode_len b n) = n
  /\ length (morse_encode_len b n) = length b
  /\ forall i : nat, (4 <= i)%nat -> morse_encode_len b n !! i = b !! i.
Proof.
  intros Hb Hn. split; [now apply morse_len_encode_len |].
  split; [apply length_morse_encode_len |].
  intros i Hi. now apply morse_encode_len_tail.
Qed.

Lemma header_round_trip_witness :
  morse_len (morse_encode_len [9; 9; 9; 9; 7] 0x12345678) = 0x12345678
  /\ morse_encode_len [9; 9; 9; 9; 7] 0x12345678 !! 4%nat = Some 7.
Proof.
  destruct (header_round_trip [9; 9; 9; 9; 7] 0x12345678) as (Hlen & _ & Htail).
  - simpl. lia.
  - lia.
  - split; [exact Hlen |]. now rewrite Htail.
Defined.

(** X2: a character that passes the range test of [morse_encode_char]
    indexes the table inside its 43 entries, and the entry found holds dots
    and dashes only. *)
Theorem table_lookup_in_bounds (c : ascii) :
  in_range c = true ->
  0 <= char_code c - OFFSET < Z.of_nat (length letters)
  /\ letters !! Z.to_nat (char_code c - OFFSET)
     = Some (letters_at (char_code c - OFFSET))
  /\ all_chars (fun x => Ascii.eqb x dot || Ascii.eqb x "-")
               (letters_at (char_code c - OFFSET)) = true.
Proof.
  destruct c as [[] [] [] [] [] [] [] []]; vm_compute;
    intros H; try discriminate H;
    (split; [split; [discriminate | reflexivity] |]); split; reflexivity.
Qed.

Lemma table_lookup_in_bounds_witness :
  letters !! Z.to_nat (char_code "Z" - OFFSET) = Some "--.."%string.
Proof.
  destruct (table_lookup_in_bounds "Z") as (_ & Hentry & _);
    [reflexivity | exact Hentry].
Defined.

(** X3: after an encoding that fits, the bits [morse_bit] reads are, unit
    by unit, those of the message: per character the gaps and the dots and
    dashes of its table entry, then twelve units off.  Their number is the
    length in the header, and the bytes past the last bit written are those
    the buffer had. *)
Theorem encoded_bits_are_the_message (s : string) (size : Z) (e : enc_state) :
  all_chars accepted s = true ->
  4 <= size < 2 ^ 29 -> Z.of_nat (length (buf e)) = size ->
  32 + (text_cost s + 12) <= 8 * size ->
  let b' := buf (snd (morse_encode s size e)) in
  (forall (k : nat) (v : bool),
      message_bits s !! k = Some v -> morse_bit b' (Z.of_nat k) = Some v)
  /\ morse_len b' = Z.of_nat (length (message_bits s))
  /\ (forall j : nat,
         (32 + (text_cost s + 12) + 7) / 8 <= Z.of_nat j ->
         b' !! j = buf e !! j).
Proof.
  intros Hacc Hsize Hlen Hfit b'.
  pose proof (morse_encode_holds_bits s size e Hacc Hsize Hlen Hfit)
    as (Hwritten & _ & Htail).
  fold b' in Hwritten, Htail.
  destruct (morse_encode_accepted s size e Hacc Hsize Hlen Hfit)
    as (e' & Hrun & Hhead & _).
  assert (Hb' : b' = buf e') by (subst b'; now rewrite Hrun).
  assert (Hsame : length b' = length (buf e))
    by (subst b'; apply (keeps_morse_encode s size)).
  pose proof (length_message_bits s) as Hbits.
  destruct (bit_size_small size Hsize) as [_ Hlim].
  split; [| split].
  - intros k v Hk. pose proof (lookup_lt_Some _ _ _ Hk) as Hlt.
    rewrite morse_bit_bit_at by lia. f_equal. now apply Hwritten.
  - rewrite Hb', Hhead. lia.
  - intros j Hj. apply Htail. rewrite Hbits.
    Z.div_mod_to_equations. lia.
Qed.

Lemma encoded_bits_are_the_message_witness :
  morse_bit (buf (snd (morse_encode "Et" MORSE_MAX_LEN fresh))) 3 = Some true
  /\ morse_len (buf (snd (morse_encode "Et" MORSE_MAX_LEN fresh))) = 22.
Proof.
  destruct (encoded_bits_are_the_message "Et" MORSE_MAX_LEN fresh)
    as (Hbits & Hlen & _).
  - reflexivity.
  - vm_compute. split; [discriminate | reflexivity].
  - reflexivity.
  - vm_compute. discriminate.
  - split; [exact (Hbits 3%nat true eq_refl) | exact Hlen].
Defined.

(** X4: every call of [morse_encode] on a buffer of [size >= 4] bytes ends
    in one of three ways: success, with nothing on stderr and a header
    between 12 and the bits after the header; failure with the overflow
    diagnostic and bytes 0 to 3 zero; or failure with one invalid-character
    diagnostic and bytes 0 to 3 as they were.  The size of the buffer is
    kept in each. *)
Theorem encode_ends_one_of_three_ways (s : string) (size : Z) (e : enc_state) :
  4 <= size < 2 ^ 29 -> Z.of_nat (length (buf e)) = size ->
  encode_outcome size e (morse_encode s size e)
  /\ length (buf (snd (morse_encode s size e))) = length (buf e).
Proof.
  intros Hsize Hlen. split.
  - now apply morse_encode_outcome.
  - apply (keeps_morse_encode s size).
Qed.

Lemma encode_ends_one_of_three_ways_witness :
  encode_outcome MORSE_MAX_LEN fresh (morse_encode "a~b" MORSE_MAX_LEN fresh).
Proof.
  apply (encode_ends_one_of_three_ways "a~b" MORSE_MAX_LEN fresh).
  - vm_compute. split; [discriminate | reflexivity].
  - reflexivity.
Defined.

(** X5: in every state the entry points can reach, the live and the next
    pointer designate different arrays, both arrays have [MORSE_MAX_LEN]
    bytes, the elapsed time is a 32-bit value, and neither length header
    exceeds the bits that follow it. *)
Theorem reachable_invariant (st : state) :
  reachable st ->
  morse_live_buf st <> morse_next_buf st
  /\ Z.of_nat (length (morse_buf1 st)) = MORSE_MAX_LEN
  /\ Z.of_nat (length (morse_buf2 st)) = MORSE_MAX_LEN
  /\ 0 <= morse_elapsed_time st < 2 ^ 32
  /\ morse_len (morse_buf1 st) <= MAX_BITS
  /\ morse_len (morse_buf2 st) <= MAX_BITS.
Proof.
  intros Hreach.
  destruct (reachable_wf st Hreach) as (Hne & L1 & L2 & Ht).
  destruct (reachable_headers_bounded st Hreach) as [H1 H2].
  auto 10.
Qed.

Lemma reachable_invariant_witness :
  morse_live_buf queued_0 <> morse_next_buf queued_0
  /\ morse_len (morse_buf1 queued_0) <= MAX_BITS.
Proof.
  destruct (reachable_invariant queued_0) as (Hne & _ & _ & _ & H1 & _).
  - unfold queued_0, playing_E.
    apply reach_morse, reach_update; [apply reach_morse, reach_init | lia].
  - split; assumption.
Defined.

(** X6: in a reachable state, a tick that stays inside the live message
    reads inside the array: the sink is given a defined bit, that of the
    live buffer 32 places past the bit index. *)
Theorem tick_inside_message_reads_in_bounds (st : state) (elapsed_ms : Z) :
  reachable st ->
  tick_index st elapsed_ms < morse_len (deref st (morse_live_buf st)) ->
  snd (morse_update st elapsed_ms)
  = [Some (bit_at (deref st (morse_live_buf st))
                  (32 + tick_index st elapsed_ms))].
Proof.
  intros Hreach Hlt.
  pose proof (reachable_wf st Hreach) as Hwf.
  pose proof (wf_length st (morse_live_buf st) Hwf) as Hlen.
  pose proof (reachable_headers_bounded st Hreach) as Hb.
  rewrite headers_bounded_deref in Hb. specialize (Hb (morse_live_buf st)).
  pose proof (tick_index_nonneg st elapsed_ms) as Hpos.
  rewrite (morse_update_playing st elapsed_ms Hlt). cbn [snd].
  unfold MAX_BITS, MORSE_MAX_LEN in *.
  rewrite morse_bit_bit_at by lia. reflexivity.
Qed.

Lemma tick_inside_message_reads_in_bounds_witness :
  snd (morse_update playing_E 185) = [Some true].
Proof.
  rewrite (tick_inside_message_reads_in_bounds playing_E 185).
  - vm_compute. reflexivity.
  - unfold playing_E.
    apply reach_update; [apply reach_morse, reach_init | lia].
  - vm_compute. reflexivity.
Defined.

(** X7: over a run of ticks none of which reaches the end of the live
    message, only the elapsed time changes, by the 32-bit sum of the ticks,
    and each tick passes to the sink the bit of the live message under the
    elapsed time divided by the dot duration. *)
Theorem ticks_sample_the_live_message (st : state) (ticks : list Z) :
  before_boundary st ticks = true ->
  let times := sample_times (morse_elapsed_time st) ticks in
  fst (run_ticks st ticks)
  = set_elapsed_time (default (morse_elapsed_time st) (last times)) st
  /\ snd (run_ticks st ticks)
     = (fun t => morse_bit (deref st (morse_live_buf st))
                           (t / morse_dot_duration)) <$> times
  /\ length (snd (run_ticks st ticks)) = length ticks.
Proof.
  intros Hbefore times. rewrite (run_ticks_playing ticks st Hbefore).
  fold times. cbn [fst snd]. split; [reflexivity |]. split; [reflexivity |].
  rewrite length_fmap. subst times. clear Hbefore.
  generalize (morse_elapsed_time st).
  induction ticks as [| ms ticks IH]; intros t; [reflexivity |].
  cbn [sample_times length]. now rewrite IH.
Qed.

Lemma ticks_sample_the_live_message_witness :
  snd (run_ticks playing_E [10; 20; 150; 70])
  = [Some false; Some false; Some true; Some false]
  /\ morse_elapsed_time (fst (run_ticks playing_E [10; 20; 150; 70])) = 250.
Proof.
  destruct (ticks_sample_the_live_message playing_E [10; 20; 150; 70])
    as (Hst & Hout & _).
  - vm_compute. reflexivity.
  - rewrite Hst, Hout. split; vm_compute; reflexivity.
Defined.

(** X8: when nothing is live in a reachable state, a text [morse] accepts
    and that fits is played from its first unit: the first tick (one that
    leaves the bit index at 0) makes it live, and with one tick of a dot
    duration per further unit the sink receives exactly the units of the
    message, gaps, dots and dashes and the twelve units of padding. *)
Theorem submitted_message_is_played
    (st : state) (s : string) (repeat : bool) (first_ms : Z) :
  reachable st ->
  morse_len (deref st (morse_live_buf st)) = 0 ->
  all_chars accepted s = true ->
  32 + (text_cost s + 12) <= 8 * MORSE_MAX_LEN ->
  tick_index st first_ms = 0 ->
  snd (run_ticks (morse st s repeat)
                 (first_ms :: replicate (length (message_bits s) - 1)
                                        morse_dot_duration))
  = Some <$> message_bits s.
Proof.
  intros Hreach Hlive Hacc Hfit Hfirst.
  destruct (run_after_submit st s repeat first_ms Hreach Hacc Hfit)
    as (Hbits & Hrun); [rewrite Hlive, Hfirst; lia |].
  rewrite Hrun, Hfirst.
  destruct (message_bits s) as [| v bits] eqn:Hm.
  - unfold message_bits in Hm. destruct (text_bits s); discriminate Hm.
  - pose proof (Hbits 0%nat v) as H0. try rewrite Hm in H0.
    specialize (H0 eq_refl). change (Z.of_nat 0) with 0 in H0.
    rewrite H0. reflexivity.
Qed.

Lemma submitted_message_is_played_witness :
  snd (run_ticks (morse init "E" false) (0 :: replicate 15 60))
  = Some <$> [false; false; false; true; false; false; false; false;
              false; false; false; false; false; false; false; false].
Proof.
  apply (submitted_message_is_played init "E" false 0).
  - apply reach_init.
  - vm_compute. reflexivity.
  - reflexivity.
  - vm_compute. discriminate.
  - reflexivity.
Defined.





(** X11: an idle engine stays idle until a text is submitted: in a
    reachable state with both buffers empty, no run of ticks calls the sink
    or changes the state, and [morse_stop] and [morse_interrupt] leave both
    buffers empty. *)
Theorem idle_until_submit (st : state) (ticks : list Z) :
  reachable st -> idle st ->
  run_ticks st ticks = (st, [])
  /\ idle (morse_stop st)
  /\ idle (morse_interrupt st).
Proof.
  intros Hreach [Hlive Hnext].
  pose proof (reachable_wf st Hreach) as Hwf.
  pose proof (wf_length st (morse_live_buf st) Hwf) as Hlen.
  destruct Hwf as (Hne & _).
  split; [now apply run_ticks_idle |]. split; [now split |].
  destruct (morse_interrupt_spec st Hne) as (Hlp & Hnp & Hlb & Hnb & _).
  unfold idle. rewrite Hlp, Hnp, Hlb, Hnb. split; [| exact Hnext].
  apply morse_len_encode_len_0. unfold MORSE_MAX_LEN in Hlen. lia.
Qed.

Lemma idle_until_submit_witness :
  run_ticks init [10; 10; 100000] = (init, []).
Proof.
  apply (idle_until_submit init [10; 10; 100000]).
  - apply reach_init.
  - split; vm_compute; reflexivity.
Defined.

(** X12: [morse_interrupt] with nothing queued silences the engine at
    once: in a reachable state whose next buffer is empty, no tick after
    the interrupt calls the sink, whatever was live and whether or not it
    repeated. *)
Theorem interrupt_silences (st : state) (ticks : list Z) :
  reachable st ->
  morse_len (deref st (morse_next_buf st)) = 0 ->
  run_ticks (morse_interrupt st) ticks = (morse_interrupt st, []).
Proof.
  intros Hreach Hnext.
  pose proof (reachable_wf st Hreach) as Hwf.
  pose proof (wf_length st (morse_live_buf st) Hwf) as Hlen.
  destruct Hwf as (Hne & _).
  destruct (morse_interrupt_spec st Hne) as (Hlp & Hnp & Hlb & Hnb & _).
  apply run_ticks_idle.
  - rewrite Hlp, Hlb. apply morse_len_encode_len_0.
    unfold MORSE_MAX_LEN in Hlen. lia.
  - now rewrite Hnp, Hnb.
Qed.

Lemma interrupt_silences_witness :
  run_ticks (morse_interrupt repeating_E) [60; 60; 60]
  = (morse_interrupt repeating_E, []).
Proof.
  apply (interrupt_silences repeating_E [60; 60; 60]).
  - unfold repeating_E.
    apply reach_update; [apply reach_morse, reach_init | lia].
  - vm_compute. reflexivity.
Defined.

(** X13: [morse_stop] lets the running pass finish and ends the repetition:
    over ticks that stay inside the live message the sink receives what it
    would have received without the call, and in a reachable state the tick
    that reaches the end of the message then exchanges the buffers even if
    the message was repeating; when the bit index of that tick lies inside
    the array, the sink is called with the bit of the former next buffer at
    that index. *)
Theorem stop_finishes_the_pass
    (st : state) (ticks : list Z) (elapsed_ms : Z) :
  (before_boundary st ticks = true ->
   snd (run_ticks (morse_stop st) ticks) = snd (run_ticks st ticks))
  /\ (reachable st ->
      morse_len (deref st (morse_live_buf st)) <> 0
      \/ morse_len (deref st (morse_next_buf st)) <> 0 ->
      morse_len (deref st (morse_live_buf st)) <= tick_index st elapsed_ms ->
      tick_index st elapsed_ms + 32 < 8 * MORSE_MAX_LEN ->
      morse_live_buf (fst (morse_update (morse_stop st) elapsed_ms))
      = morse_next_buf st
      /\ snd (morse_update (morse_stop st) elapsed_ms)
         = [Some (bit_at (deref st (morse_next_buf st))
                         (32 + tick_index st elapsed_ms))]).
Proof.
  split.
  - apply same_live_run. unfold same_live, morse_stop.
    destruct st; repeat split.
  - intros Hreach Hbusy Hend Hin.
    pose proof (reachable_wf st Hreach) as Hwf.
    pose proof (wf_length st (morse_next_buf st) Hwf) as Hlen.
    pose proof (tick_index_nonneg st elapsed_ms) as Hpos.
    destruct Hwf as (Hne & _).
    assert (Hderef : forall p, deref (morse_stop st) p = deref st p)
      by (intros []; reflexivity).
    rewrite (morse_update_swap (morse_stop st) elapsed_ms);
      [| exact Hne | now rewrite !Hderef | now rewrite Hderef | reflexivity].
    cbn [fst snd]. rewrite Hderef. split.
    + set (st1 := set_elapsed_time _ (morse_stop st)).
      destruct (morse_switch_buf_spec st1 Hne) as (Hlive & _).
      exact Hlive.
    + change (tick_index (morse_stop st) elapsed_ms)
        with (tick_index st elapsed_ms).
      change (morse_next_buf (morse_stop st)) with (morse_next_buf st).
      unfold MORSE_MAX_LEN in *. rewrite morse_bit_bit_at by lia.
      reflexivity.
Qed.

Lemma stop_finishes_the_pass_witness :
  snd (run_ticks (morse_stop repeating_E) [60; 60; 60])
  = snd (run_ticks repeating_E [60; 60; 60])
  /\ morse_live_buf (fst (morse_update (morse_stop repeating_E) 960))
     = morse_next_buf repeating_E
  /\ snd (morse_update (morse_stop repeating_E) 960) = [Some false].
Proof.
  destruct (stop_finishes_the_pass repeating_E [60; 60; 60] 960)
    as [Hbefore Hend].
  split; [apply Hbefore; vm_compute; reflexivity |].
  destruct Hend as [Hlive Hout].
  - unfold repeating_E.
    apply reach_update; [apply reach_morse, reach_init | lia].
  - left. vm_compute. discriminate.
  - vm_compute. discriminate.
  - vm_compute. reflexivity.
  - split; [exact Hlive |]. rewrite Hout. vm_compute. reflexivity.
Defined.

(** X14: no text of up to 370 characters from [{0-9, A-Z, a-z, space}] is
    too long: a character costs at most 22 units, so [morse_encode] on a
    buffer of [MORSE_MAX_LEN] bytes succeeds on every such text and writes
    nothing to stderr. *)
Theorem short_texts_always_fit (s : string) (e : enc_state) :
  all_chars supported s = true ->
  Z.of_nat (String.length s) <= 370 ->
  Z.of_nat (length (buf e)) = MORSE_MAX_LEN ->
  text_cost s <= 22 * Z.of_nat (String.length s)
  /\ fst (morse_encode s MORSE_MAX_LEN e) = true
  /\ err (snd (morse_encode s MORSE_MAX_LEN e)) = err e.
Proof.
  intros Hsup Hshort Hlen.
  pose proof (all_chars_impl supported accepted s supported_accepted Hsup)
    as Hacc.
  assert (Hcost : text_cost s <= 22 * Z.of_nat (String.length s)).
  { clear Hshort Hsup. induction s as [| ch s IH]; [simpl; lia |].
    cbn [all_chars] in Hacc. apply andb_true_iff in Hacc as [Hch Hs].
    pose proof (accepted_cost ch Hch). specialize (IH Hs).
    cbn [text_cost String.length]. lia. }
  split; [exact Hcost |].
  destruct (morse_encode_accepted s MORSE_MAX_LEN e Hacc) as (e' & -> & _ & Herr).
  - vm_compute. split; [discriminate | reflexivity].
  - exact Hlen.
  - unfold MORSE_MAX_LEN. lia.
  - split; [reflexivity | exact Herr].
Qed.

Lemma short_texts_always_fit_witness :
  fst (morse_encode "Hello CQ DE Morse" MORSE_MAX_LEN fresh) = true.
Proof.
  apply (short_texts_always_fit "Hello CQ DE Morse" fresh).
  - reflexivity.
  - vm_compute. discriminate.
  - reflexivity.
Defined.

(** X15: a text queued behind a live message takes over on the tick that
    reaches the end of that message.  When the bit index of that tick lies
    inside the array, the tick calls the sink with the bit of the new
    message's buffer at that index (a unit of the message as long as the
    index is inside it), not with its first unit; the time then restarts,
    and with one tick of a dot duration per unit the sink receives the
    units of the new message from the second on. *)
Theorem queued_message_takes_over
    (st : state) (s : string) (repeat : bool) (boundary_ms : Z) :
  reachable st ->
  all_chars accepted s = true ->
  32 + (text_cost s + 12) <= 8 * MORSE_MAX_LEN ->
  morse_len (deref st (morse_live_buf st)) <= tick_index st boundary_ms ->
  tick_index st boundary_ms + 32 < 8 * MORSE_MAX_LEN ->
  let b := deref (morse st s repeat) (morse_next_buf st) in
  snd (run_ticks (morse st s repeat)
                 (boundary_ms :: replicate (length (message_bits s) - 1)
                                           morse_dot_duration))
  = Some (bit_at b (32 + tick_index st boundary_ms))
    :: (Some <$> drop 1 (message_bits s))
  /\ (forall v : bool,
        message_bits s !! Z.to_nat (tick_index st boundary_ms) = Some v ->
        bit_at b (32 + tick_index st boundary_ms) = v).
Proof.
  intros Hreach Hacc Hfit Hend Hin b.
  destruct (run_after_submit st s repeat boundary_ms Hreach Hacc Hfit Hend)
    as (Hbits & Hrun).
  fold b in Hbits, Hrun.
  pose proof (tick_index_nonneg st boundary_ms) as Hpos.
  pose proof (wf_length (morse st s repeat) (morse_next_buf st)
                (wf_morse st s repeat (reachable_wf st Hreach))) as Hlen.
  fold b in Hlen. unfold MORSE_MAX_LEN in Hin, Hlen.
  assert (Hread : morse_bit b (tick_index st boundary_ms)
                  = Some (bit_at b (32 + tick_index st boundary_ms)))
    by (apply morse_bit_bit_at; lia).
  split; [now rewrite Hrun, Hread |].
  intros v Hv.
  specialize (Hbits _ _ Hv). rewrite Z2Nat.id in Hbits by exact Hpos.
  rewrite Hread in Hbits. now injection Hbits.
Qed.

(** "0" queued behind "E": the boundary tick passes unit 16 of "0", and
    unit 0 of "0" is never passed. *)
Lemma queued_message_takes_over_witness :
  snd (run_ticks (morse playing_E "0" false) (960 :: replicate 33 60))
  = Some true :: (Some <$> drop 1 (message_bits "0")).
Proof.
  destruct (queued_message_takes_over playing_E "0" false 960) as (Hrun & Hbit).
  - unfold playing_E.
    apply reach_update; [apply reach_morse, reach_init | lia].
  - reflexivity.
  - vm_compute. discriminate.
  - vm_compute. discriminate.
  - vm_compute. reflexivity.
  - change (length (message_bits "0") - 1)%nat with 33%nat in Hrun.
    unfold morse_dot_duration in Hrun. rewrite Hrun.
    rewrite (Hbit true) by reflexivity. reflexivity.
Defined.
